(** * HtmlParser: the style cascade and the stack-based tree builder

    A shallow embedding of [src/parser/HtmlParser.ts] (pdf-light).

    - JavaScript strings are sequences of UTF-16 code units ([list N]).
    - The two regular expressions of the file are embedded as anchored
      matchers tried at every start index, as [RegExp.prototype.exec] does.
    - Style objects are finite maps from style keys to values.
    - Render nodes live in a store: the open-element stack and the root array
      hold references, so that [parent.children.push] on a stacked node is
      seen from the tree.
    - The static field [cssRules] is threaded through [parse]. *)

From Stdlib Require Import NArith ZArith List Ascii String Lia.
From stdpp Require Import base decidable option numbers list gmap.
Import ListNotations.

Local Open Scope N_scope.
Local Open Scope list_scope.

(** ** JavaScript strings *)

Abbreviation jsstring := (list N).

(** An ASCII literal as a sequence of code units. *)
Definition js (s : string) : jsstring :=
  map N_of_ascii (list_ascii_of_string s).

(** [WhiteSpace] and [LineTerminator] code units: what [\s] matches and what
    [String.prototype.trim] strips. *)
Definition isSpace (c : N) : bool :=
  (c =? 9) || (c =? 10) || (c =? 11) || (c =? 12) || (c =? 13) || (c =? 32)
  || (c =? 160) || (c =? 5760) || ((8192 <=? c) && (c <=? 8202))
  || (c =? 8232) || (c =? 8233) || (c =? 8239) || (c =? 8287)
  || (c =? 12288) || (c =? 65279).

(** The class [[\n\r\t]]. *)
Definition isNewlineTab (c : N) : bool :=
  (c =? 10) || (c =? 13) || (c =? 9).

Fixpoint dropWhile (p : N → bool) (s : jsstring) : jsstring :=
  match s with
  | [] => []
  | c :: r => if p c then dropWhile p r else s
  end.

Fixpoint takeWhile (p : N → bool) (s : jsstring) : jsstring :=
  match s with
  | [] => []
  | c :: r => if p c then c :: takeWhile p r else []
  end.

Definition trimStart (s : jsstring) : jsstring := dropWhile isSpace s.
Definition trimEnd (s : jsstring) : jsstring := rev (dropWhile isSpace (rev s)).

(** [s.trim()] *)
Definition trim (s : jsstring) : jsstring := trimEnd (trimStart s).

(** [s.split(sep)] for a one-character separator: never empty, [""] splits
    into [[""]]. *)
Fixpoint split (sep : N) (s : jsstring) : list jsstring :=
  match s with
  | [] => [[]]
  | c :: r =>
      if c =? sep then [] :: split sep r
      else match split sep r with
           | p :: ps => (c :: p) :: ps
           | [] => [[c]]
           end
  end.

(** [parts.join(sep)] *)
Fixpoint join (sep : jsstring) (parts : list jsstring) : jsstring :=
  match parts with
  | [] => []
  | [p] => p
  | p :: ps => p ++ sep ++ join sep ps
  end.

(** [s.startsWith(prefix)] *)
Fixpoint startsWith (prefix s : jsstring) : bool :=
  match prefix, s with
  | [], _ => true
  | a :: p, b :: r => (a =? b) && startsWith p r
  | _ :: _, [] => false
  end.

(** [s.replace(/[class]+/g, ' ')]: every maximal run of characters of the
    class becomes one space.  [inRun] tells that the previous character
    belonged to a run already replaced. *)
Fixpoint replaceRuns (p : N → bool) (inRun : bool) (s : jsstring) : jsstring :=
  match s with
  | [] => []
  | c :: r =>
      if p c then
        if inRun then replaceRuns p true r else 32 :: replaceRuns p true r
      else c :: replaceRuns p false r
  end.

(** [text.replace(/[\n\r\t]+/g, ' ').replace(/\s+/g, ' ')] of [ontext]. *)
Definition collapse (text : jsstring) : jsstring :=
  replaceRuns isSpace false (replaceRuns isNewlineTab false text).

(** ** Global regular-expression loops

    [while ((match = re.exec(s)) !== null)] with a [g] regex: [exec] tries
    the anchored matcher at every index from [lastIndex] on and returns the
    leftmost match; the next call resumes after it. *)

Section Regex.
Context {M : Type}.
(** The anchored matcher: the captures and the text left after the match. *)
Variable matchHere : jsstring → option (M * jsstring).

Fixpoint exec (s : jsstring) : option (M * jsstring) :=
  match matchHere s with
  | Some r => Some r
  | None =>
      match s with
      | [] => None
      | _ :: s' => exec s'
      end
  end.

Fixpoint matchLoop (fuel : nat) (s : jsstring) : list M :=
  match fuel with
  | O => []
  | S n =>
      match exec s with
      | None => []
      | Some (m, rest) => m :: matchLoop n rest
      end
  end.

(** Every match consumes at least one character, so [length s] rounds are
    enough (see [matchAll_unfold]). *)
Definition matchAll (s : jsstring) : list M := matchLoop (length s) s.
End Regex.

(** [a === b] on strings. *)
Notation "a === b" := (bool_decide (a = b)) (at level 70, no associativity).

(** ** Style maps *)

(** The keys of [RenderNode['styles']] that the parser writes. *)
Inductive StyleKey :=
  | fontSize | fontFamily | fontWeight | color | textAlign
  | marginTop | marginBottom | backgroundColor | borderBottom
  | padding | width.

#[global] Instance StyleKey_eq_dec : EqDecision StyleKey.
Proof. solve_decision. Defined.

Definition StyleKey_to_nat (k : StyleKey) : nat :=
  match k with
  | fontSize => 0 | fontFamily => 1 | fontWeight => 2 | color => 3
  | textAlign => 4 | marginTop => 5 | marginBottom => 6
  | backgroundColor => 7 | borderBottom => 8 | padding => 9 | width => 10
  end%nat.

Definition StyleKey_of_nat (n : nat) : option StyleKey :=
  match n with
  | 0 => Some fontSize | 1 => Some fontFamily | 2 => Some fontWeight
  | 3 => Some color | 4 => Some textAlign | 5 => Some marginTop
  | 6 => Some marginBottom | 7 => Some backgroundColor
  | 8 => Some borderBottom | 9 => Some padding | 10 => Some width
  | _ => None
  end%nat.

#[global] Instance StyleKey_countable : Countable StyleKey.
Proof.
  apply (inj_countable StyleKey_to_nat StyleKey_of_nat).
  intros []; reflexivity.
Defined.

(** A JavaScript number of a style map.  IEEE doubles are left out of this
    development: a number is a literal of the source or the result of
    [parseFloat] on a text, kept as that text. *)
Inductive Number :=
  | NumLit (z : Z)
  | NumParsed (raw : jsstring).

Definition parseFloat (s : jsstring) : Number := NumParsed s.

Inductive Value :=
  | VNum (n : Number)
  | VStr (s : jsstring).

#[global] Instance Number_eq_dec : EqDecision Number.
Proof. solve_decision. Defined.

#[global] Instance Value_eq_dec : EqDecision Value.
Proof. solve_decision. Defined.

Abbreviation Styles := (gmap StyleKey Value).

(** [{ ...a, ...b }] and [Object.assign(a, b)]: the keys of [b] overwrite. *)
Definition spread (a b : Styles) : Styles := b ∪ a.

(** ** Attributes and declaration records *)

(** A [Record<string, string>]: the own properties in creation order. *)
Abbreviation JsRecord := (list (jsstring * jsstring)).

(** [attribs.name] *)
Fixpoint attr (name : jsstring) (attribs : JsRecord) : option jsstring :=
  match attribs with
  | [] => None
  | (k, v) :: r => if k === name then Some v else attr name r
  end.

(** [if (attribs.name)]: defined and not the empty string. *)
Definition truthy (o : option jsstring) : option jsstring :=
  match o with
  | Some (c :: r) => Some (c :: r)
  | _ => None
  end.

(** [record[key] = value]: an existing property keeps its place, a new one
    is created last.  Writing a string to [__proto__] creates no property.
    ([Object.entries] lists array-index keys before the others; such keys name
    no style property and [parseStyles] skips them wherever they stand, so
    they are kept in creation order here.) *)
Fixpoint recordSet (key value : jsstring) (record : JsRecord) : JsRecord :=
  match record with
  | [] => if key === js "__proto__" then [] else [(key, value)]
  | (k, v) :: r =>
      if k === key then (k, value) :: r else (k, v) :: recordSet key value r
  end.

(** ** Declarations *)

(** [const [key, value] = decl.split(':').map(s => s.trim())] followed by the
    test that [key] and [value] are both truthy, as [parseStyles] and
    [parseCss] both write it. *)
Definition keyValue (decl : jsstring) : option (jsstring * jsstring) :=
  match map trim (split 58 decl) with
  | (k :: key) :: (v :: value) :: _ => Some (k :: key, v :: value)
  | _ => None
  end.

(** The body of the [forEach] of [parseStyles] for one truthy pair. *)
Definition assign (styles : Styles) (key value : jsstring) : Styles :=
  let styles :=
    if key === js "font-size"
    then <[fontSize := VNum (parseFloat value)]> styles else styles in
  let styles :=
    if key === js "color" then <[color := VStr value]> styles else styles in
  let styles :=
    if key === js "text-align"
    then <[textAlign := VStr value]> styles else styles in
  let styles :=
    if key === js "font-weight"
    then <[fontWeight :=
             VStr (if value === js "bold" then js "bold" else js "normal")]>
           styles
    else styles in
  let styles :=
    if key === js "margin-top"
    then <[marginTop := VNum (parseFloat value)]> styles else styles in
  let styles :=
    if key === js "margin-bottom"
    then <[marginBottom := VNum (parseFloat value)]> styles else styles in
  let styles :=
    if key === js "margin"
    then <[marginBottom := VNum (parseFloat value)]>
           (<[marginTop := VNum (parseFloat value)]> styles)
    else styles in
  let styles :=
    if key === js "background-color"
    then <[backgroundColor := VStr value]> styles else styles in
  let styles :=
    if key === js "border-bottom"
    then <[borderBottom := VStr value]> styles else styles in
  let styles :=
    if key === js "padding"
    then <[padding := VNum (parseFloat value)]> styles else styles in
  if key === js "width" then <[width := VStr value]> styles else styles.

Definition styleStep (styles : Styles) (rule : jsstring) : Styles :=
  match keyValue rule with
  | Some (key, value) => assign styles key value
  | None => styles
  end.

Definition parseStyles (styleStr : option jsstring) : Styles :=
  match styleStr with
  | None | Some [] => ∅
  | Some s => fold_left styleStep (split 59 s) ∅
  end.

(** ** Style-sheet text *)

(** A lazy [[\s\S]*?] followed by the literal [pat]: the text before the
    first occurrence of [pat] and the text after it. *)
Fixpoint findSub (pat s : jsstring) : option (jsstring * jsstring) :=
  if startsWith pat s then Some ([], drop (length pat) s)
  else match s with
       | [] => None
       | c :: r =>
           match findSub pat r with
           | Some (before, after) => Some (c :: before, after)
           | None => None
           end
       end.

(** [/<style[^>]*>([\s\S]*?)<\/style>/] anchored: the capture and the text
    after [</style>].  [[^>]*] runs to the first [>], the lazy group to the
    first [</style>] after it. *)
Definition styleHere (s : jsstring) : option (jsstring * jsstring) :=
  if startsWith (js "<style") s then
    match dropWhile (λ c, negb (c =? 62)) (drop 6 s) with
    | _ :: afterOpen => findSub (js "</style>") afterOpen
    | [] => None
    end
  else None.

(** ['\n'] *)
Definition newline : jsstring := [10].

(** [extractStyleTags]: [css += match[1] + '\n'] for every match. *)
Definition extractStyleTags (html : jsstring) : jsstring :=
  fold_left (λ css m, css ++ m ++ newline) (matchAll styleHere html) [].

Definition isBrace (c : N) : bool := (c =? 123) || (c =? 125).

(** The classes [[^{}]] and [[^}]]. *)
Definition notBrace (c : N) : bool := negb (isBrace c).
Definition notClose (c : N) : bool := negb (c =? 125).

(** The second capture of the rule regex, [\s*([^}]+)\s*] against the text
    between [{] and the first [}]: the leading white space goes to [\s*]
    unless nothing else is left, in which case [\s*] gives its last
    character back to the group. *)
Definition ruleBody (inner : jsstring) : option jsstring :=
  match dropWhile isSpace inner with
  | c :: r => Some (c :: r)
  | [] => match last inner with
          | Some c => Some [c]
          | None => None
          end
  end.

(** [/([^{}]+)\s*{\s*([^}]+)\s*}/] anchored: the two captures and the text
    after the closing brace.  [[^{}]+] takes the whole brace-free run, which
    has to stop at [{]; [[^}]+] stops at the first [}]. *)
Definition ruleHere (s : jsstring)
  : option ((jsstring * jsstring) * jsstring) :=
  match takeWhile notBrace s, dropWhile notBrace s with
  | c :: sel, brace :: afterOpen =>
      if brace =? 123 then
        match dropWhile notClose afterOpen with
        | _ :: rest =>
            match ruleBody (takeWhile notClose afterOpen) with
            | Some body => Some ((c :: sel, body), rest)
            | None => None
            end
        | [] => None
        end
      else None
  | _, _ => None
  end.

Definition declarationStep (declarations : JsRecord) (decl : jsstring)
  : JsRecord :=
  match keyValue decl with
  | Some (key, value) => recordSet key value declarations
  | None => declarations
  end.

(** The [declarations] object that [parseCss] builds from [match[2]]. *)
Definition declarationsOf (body : jsstring) : JsRecord :=
  fold_left declarationStep (split 59 body) [].

Abbreviation CssRule := (jsstring * JsRecord)%type.

Definition parseCss (css : jsstring) : list CssRule :=
  map (λ m : jsstring * jsstring, (trim (fst m), declarationsOf (snd m)))
      (matchAll ruleHere css).

Definition matchesSelector (selector tagName : jsstring)
    (classNames : list jsstring) (id : option jsstring) : bool :=
  let selector := trim selector in
  if startsWith (js ".") selector then
    bool_decide (drop 1 selector ∈ classNames)
  else if startsWith (js "#") selector then
    bool_decide (id = Some (drop 1 selector))
  else selector === tagName.

(** [Object.entries(declarations).map(([key, value]) => `${key}: ${value}`)
    .join(';')] handed to [parseStyles]. *)
Definition declarationStyles (declarations : JsRecord) : Styles :=
  parseStyles
    (Some (join (js ";")
             (map (λ kv : jsstring * jsstring, fst kv ++ js ": " ++ snd kv)
                  declarations))).

Definition ruleStep (tagName : jsstring) (classNames : list jsstring)
    (id : option jsstring) (appliedStyles : Styles) (rule : CssRule)
  : Styles :=
  if matchesSelector (fst rule) tagName classNames id
  then spread appliedStyles (declarationStyles (snd rule))
  else appliedStyles.

Definition applyCssRules (cssRules : list CssRule) (tagName : jsstring)
    (classNames : list jsstring) (id : option jsstring) : Styles :=
  fold_left (ruleStep tagName classNames id) cssRules ∅.

Definition bold : Value := VStr (js "bold").

Definition getUserAgentStyles (tagName : jsstring) : Styles :=
  let s : Styles :=
    list_to_map
      [ (fontSize, VNum (NumLit 12)); (fontFamily, VStr (js "body"));
        (fontWeight, VStr (js "normal")); (color, VStr (js "#000000"));
        (textAlign, VStr (js "left")); (marginTop, VNum (NumLit 0));
        (marginBottom, VNum (NumLit 0)) ] in
  if tagName === js "h1" then
    <[marginBottom := VNum (NumLit 10)]>
      (<[fontWeight := bold]> (<[fontSize := VNum (NumLit 24)]> s))
  else if tagName === js "h2" then
    <[marginBottom := VNum (NumLit 10)]>
      (<[fontWeight := bold]> (<[fontSize := VNum (NumLit 20)]> s))
  else if tagName === js "h3" then
    <[marginBottom := VNum (NumLit 8)]>
      (<[fontWeight := bold]> (<[fontSize := VNum (NumLit 18)]> s))
  else if tagName === js "p" then <[marginBottom := VNum (NumLit 10)]> s
  else s.

(** [attribs.class?.split(' ') ?? []] *)
Definition classNamesOf (attribs : JsRecord) : list jsstring :=
  match attr (js "class") attribs with
  | Some c => split 32 c
  | None => []
  end.

(** The three style layers of [createNode]. *)
Definition baseStyles (tagName : jsstring) : Styles :=
  getUserAgentStyles tagName.

Definition cssStyles (cssRules : list CssRule) (tagName : jsstring)
    (attribs : JsRecord) : Styles :=
  applyCssRules cssRules tagName (classNamesOf attribs)
    (attr (js "id") attribs).

Definition inlineStyles (attribs : JsRecord) : Styles :=
  parseStyles (attr (js "style") attribs).

(** [const finalStyles = { ...baseStyles, ...cssStyles, ...inlineStyles }] *)
Definition finalStyles (cssRules : list CssRule) (tagName : jsstring)
    (attribs : JsRecord) : Styles :=
  spread (spread (baseStyles tagName) (cssStyles cssRules tagName attribs))
         (inlineStyles attribs).

(** ** Render nodes *)

Inductive NodeType :=
  | NText | NBreak | NImage | NTable | NRow | NCell | NBlock.

#[global] Instance NodeType_eq_dec : EqDecision NodeType.
Proof. solve_decision. Defined.

(** Modelled from the spec: the type [RenderNode] of [../types], which is not
    among the sources.  A node has a kind and a style map; a text node
    carries its text, an image its [src]; a container owns an ordered
    sequence of children.  An absent field is [None]; the children are
    references into the store of the conversion. *)
Record RenderNode := {
  type : NodeType;
  styles : Styles;
  text : option jsstring;
  src : option jsstring;
  children : option (list nat)
}.

Definition leaf (ty : NodeType) (st : Styles) : RenderNode :=
  {| type := ty; styles := st; text := None; src := None; children := None |}.

(** [{ type, styles, children: [] }] *)
Definition container (ty : NodeType) (st : Styles) : RenderNode :=
  {| type := ty; styles := st; text := None; src := None;
     children := Some [] |}.

(** [if (attribs.name) styles.key = f(attribs.name)] *)
Definition fromAttr (name : jsstring) (key : StyleKey)
    (f : jsstring → Value) (attribs : JsRecord) (st : Styles) : Styles :=
  match truthy (attr name attribs) with
  | Some v => <[key := f v]> st
  | None => st
  end.

Definition isVoidElement (tagName : jsstring) : bool :=
  bool_decide (tagName ∈ [js "img"; js "br"; js "hr"; js "input"]).

Definition createNode (cssRules : list CssRule) (tagName : jsstring)
    (attribs : JsRecord) : option RenderNode :=
  let finalStyles := finalStyles cssRules tagName attribs in
  if tagName === js "br" then Some (leaf NBreak finalStyles)
  else if tagName === js "img" then
    Some {| type := NImage; styles := finalStyles; text := None;
            src := attr (js "src") attribs; children := None |}
  else if tagName === js "table" then
    let finalStyles := fromAttr (js "width") width VStr attribs finalStyles in
    let finalStyles :=
      fromAttr (js "cellpadding") padding (λ v, VNum (parseFloat v))
               attribs finalStyles in
    Some (container NTable finalStyles)
  else if (tagName === js "thead") || (tagName === js "tbody") then
    Some (container NBlock finalStyles)
  else if tagName === js "tr" then Some (container NRow finalStyles)
  else if (tagName === js "td") || (tagName === js "th") then
    let finalStyles :=
      fromAttr (js "align") textAlign VStr attribs finalStyles in
    let finalStyles := fromAttr (js "width") width VStr attribs finalStyles in
    Some (container NCell finalStyles)
  else if bool_decide (tagName ∈ [js "h1"; js "h2"; js "h3"; js "h4";
                                  js "h5"; js "h6"; js "p"; js "div"]) then
    Some (container NBlock finalStyles)
  else if bool_decide (tagName ∈ [js "span"; js "strong"; js "b"; js "em";
                                  js "i"]) then
    let finalStyles :=
      if (tagName === js "strong") || (tagName === js "b")
      then <[fontWeight := bold]> finalStyles else finalStyles in
    Some (container NBlock finalStyles)
  else None.

(** ** The tree builder *)

(** A handler returns normally or raises ([TypeError]: a property of
    [undefined] is read). *)
Inductive Result (A : Type) :=
  | Ok (a : A)
  | Throw.
Arguments Ok {A} a.
Arguments Throw {A}.

(** The store of the nodes created so far (a reference is an index, a new
    node gets the next one) and the two arrays of [parse]. *)
Record Builder := {
  heap : list RenderNode;
  rootNodes : list nat;
  stack : list nat
}.

Definition emptyBuilder : Builder :=
  {| heap := []; rootNodes := []; stack := [] |}.

(** [if (!parent.children) parent.children = []; parent.children.push(c)] *)
Definition pushChild (child : nat) (parent : RenderNode) : RenderNode :=
  {| type := type parent; styles := styles parent; text := text parent;
     src := src parent;
     children := Some (default [] (children parent) ++ [child]) |}.

(** [const parent = stack[stack.length - 1]]: the reference and the object
    it points to.  [Throw] stands for the read of a property of an
    [undefined] parent. *)
Definition top (b : Builder) : Result (nat * RenderNode) :=
  match last (stack b) with
  | None => Throw
  | Some p =>
      match heap b !! p with
      | Some parent => Ok (p, parent)
      | None => Throw
      end
  end.

Definition onopentag (cssRules : list CssRule) (b : Builder)
    (name : jsstring) (attribs : JsRecord) : Result Builder :=
  if name === js "style" then Ok b
  else
    match createNode cssRules name attribs with
    | None => Ok b
    | Some node =>
        let r := length (heap b) in
        let attached :=
          if bool_decide (0 < length (stack b))%nat then
            match top b with
            | Ok (p, parent) =>
                Ok {| heap := <[p := pushChild r parent]> (heap b ++ [node]);
                      rootNodes := rootNodes b; stack := stack b |}
            | Throw => Throw
            end
          else
            Ok {| heap := heap b ++ [node]; rootNodes := rootNodes b ++ [r];
                  stack := stack b |} in
        match attached with
        | Ok b1 =>
            if negb (isVoidElement name)
            then Ok {| heap := heap b1; rootNodes := rootNodes b1;
                       stack := stack b1 ++ [r] |}
            else Ok b1
        | Throw => Throw
        end
    end.

Definition ontext (b : Builder) (txt : jsstring) : Result Builder :=
  if bool_decide (0 < length (stack b))%nat then
    match top b with
    | Ok (p, parent) =>
        let cleanText := collapse txt in
        if bool_decide (0 < length (trim cleanText))%nat then
          let textNode :=
            {| type := NText; styles := styles parent;
               text := Some cleanText; src := None; children := None |} in
          let r := length (heap b) in
          Ok {| heap := <[p := pushChild r parent]> (heap b ++ [textNode]);
                rootNodes := rootNodes b; stack := stack b |}
        else Ok b
    | Throw => Throw
    end
  else Ok b.

(** [stack.pop()] on an empty array changes nothing. *)
Definition onclosetag (b : Builder) (name : jsstring) : Result Builder :=
  if negb (isVoidElement name) && negb (name === js "style")
  then Ok {| heap := heap b; rootNodes := rootNodes b;
             stack := removelast (stack b) |}
  else Ok b.

(** The callbacks of the tokenizer, in document order. *)
Inductive Event :=
  | OpenTag (name : jsstring) (attribs : JsRecord)
  | TextEvent (txt : jsstring)
  | CloseTag (name : jsstring).

Definition handle (cssRules : list CssRule) (b : Builder) (e : Event)
  : Result Builder :=
  match e with
  | OpenTag name attribs => onopentag cssRules b name attribs
  | TextEvent txt => ontext b txt
  | CloseTag name => onclosetag b name
  end.

(** [parser.write(html); parser.end()]: the handlers run on every event; an
    exception ends the run. *)
Fixpoint feed (cssRules : list CssRule) (events : list Event) (b : Builder)
  : Result Builder :=
  match events with
  | [] => Ok b
  | e :: rest =>
      match handle cssRules b e with
      | Ok b' => feed cssRules rest b'
      | Throw => Throw
      end
  end.

(** ** The conversion *)

(** The static fields of the class. *)
Record Statics := { cssRules : list CssRule }.

(** [[inlineStyles, css || ''].filter(s => s.trim()).join('\n')] *)
Definition allCss (html : jsstring) (css : option jsstring) : jsstring :=
  join newline
    (filter (λ s, trim s ≠ []) [extractStyleTags html; default [] css]).

(** What [parse] returns: the root array, with the store its references
    point into. *)
Record Forest := { nodes : list RenderNode; roots : list nat }.

(** [HtmlParser.parse(html, css)], from the static fields as the previous
    call left them to the result and the static fields as this call leaves
    them.  [tokenize] is htmlparser2: the events it delivers for [html].
    [HtmlParser.cssRules = HtmlParser.parseCss(allCss)] comes first; the
    handlers read the field through [createNode]. *)
Definition parse (tokenize : jsstring → list Event) (statics : Statics)
    (html : jsstring) (css : option jsstring) : Result Forest * Statics :=
  let statics := {| cssRules := parseCss (allCss html css) |} in
  match feed (cssRules statics) (tokenize html) emptyBuilder with
  | Ok b => (Ok {| nodes := heap b; roots := rootNodes b |}, statics)
  | Throw => (Throw, statics)
  end.

(** ** Reading the result as a tree *)

#[local] Unset Elimination Schemes.
Inductive Tree :=
  | TreeNode (ty : NodeType) (st : Styles) (txt image : option jsstring)
             (kids : option (list Tree)).
#[local] Set Elimination Schemes.

(** The tree under reference [r]; [depth] bounds the nesting. *)
Fixpoint reify (depth : nat) (store : list RenderNode) (r : nat)
  : option Tree :=
  match depth with
  | O => None
  | S d =>
      match store !! r with
      | None => None
      | Some n =>
          match children n with
          | None => Some (TreeNode (type n) (styles n) (text n) (src n) None)
          | Some cs =>
              match mapM (reify d store) cs with
              | Some ts =>
                  Some (TreeNode (type n) (styles n) (text n) (src n)
                                 (Some ts))
              | None => None
              end
          end
      end
  end.

Definition trees (f : Forest) : option (list Tree) :=
  mapM (reify (length (nodes f)) (nodes f)) (roots f).

(** ** Predicates used in the statements *)

(** A text in which white space only occurs as single spaces;
    [afterSpace] tells that a space stands just before the text. *)
Fixpoint collapsed (afterSpace : bool) (s : jsstring) : Prop :=
  match s with
  | [] => True
  | c :: r =>
      if isSpace c then c = 32 ∧ afterSpace = false ∧ collapsed true r
      else collapsed false r
  end.

(** The kinds of the void nodes. *)
Definition isVoidKind (ty : NodeType) : bool :=
  match ty with
  | NBreak | NImage => true
  | _ => false
  end.

(** What holds of the builder between two events: every stacked reference
    points to a node of the store that is not of a void kind, and no node of
    a void kind has a children array. *)
Definition Invariant (b : Builder) : Prop :=
  Forall (λ r, ∃ n, heap b !! r = Some n ∧ isVoidKind (type n) = false)
         (stack b)
  ∧ Forall (λ n, isVoidKind (type n) = true → children n = None) (heap b).

Definition isTextEvent (e : Event) : Prop :=
  match e with
  | TextEvent _ => True
  | _ => False
  end.

(** The trees a run of the handlers has built so far. *)
Definition built (r : Result Builder) : option (list Tree) :=
  match r with
  | Ok b => trees {| nodes := heap b; roots := rootNodes b |}
  | Throw => None
  end.

(** The split as the specification words it, on the first [:] only: the key
    is the text before it, the value all the rest, both trimmed; a
    declaration without a key or a value is dropped.  Compared with
    [keyValue] below. *)
Definition keyValueFirstColon (decl : jsstring)
  : option (jsstring * jsstring) :=
  match findSub [58] decl with
  | Some (key, value) =>
      match trim key, trim value with
      | k :: key', v :: value' => Some (k :: key', v :: value')
      | _, _ => None
      end
  | None => None
  end.

(** No occurrence of the character [c]. *)
Definition without (c : N) (s : jsstring) : bool :=
  forallb (λ x, negb (x =? c)) s.

(** White space only. *)
Definition allSpace (s : jsstring) : bool := forallb isSpace s.

(** ** The handlers as steps *)

(** The text node that [ontext] creates under [parent]. *)
Definition textNode (parent : RenderNode) (txt : jsstring) : RenderNode :=
  {| type := NText; styles := styles parent; text := Some (collapse txt);
     src := None; children := None |}.

(** What one event can do to the builder: nothing; pop the stack; create a
    node as a new root; create a node as the last child of the stack top
    (an element, pushed unless its tag is void, or a text node). *)
Inductive Step (rules : list CssRule) (b : Builder) : Builder → Prop :=
  | step_same : Step rules b b
  | step_pop :
      Step rules b {| heap := heap b; rootNodes := rootNodes b;
                      stack := removelast (stack b) |}
  | step_root name attribs node :
      stack b = [] → createNode rules name attribs = Some node →
      Step rules b
        {| heap := heap b ++ [node];
           rootNodes := rootNodes b ++ [length (heap b)];
           stack := if isVoidElement name then stack b
                    else stack b ++ [length (heap b)] |}
  | step_child name attribs node p parent :
      last (stack b) = Some p → heap b !! p = Some parent →
      createNode rules name attribs = Some node →
      Step rules b
        {| heap := <[p := pushChild (length (heap b)) parent]>
                     (heap b ++ [node]);
           rootNodes := rootNodes b;
           stack := if isVoidElement name then stack b
                    else stack b ++ [length (heap b)] |}
  | step_text txt p parent :
      last (stack b) = Some p → heap b !! p = Some parent →
      trim (collapse txt) ≠ [] →
      Step rules b
        {| heap := <[p := pushChild (length (heap b)) parent]>
                     (heap b ++ [textNode parent txt]);
           rootNodes := rootNodes b; stack := stack b |}.

(** The children of all the nodes of a store, in store order. *)
Definition allChildren (store : list RenderNode) : list nat :=
  concat (map (λ n, default [] (children n)) store).

(** Every element of [path] after the first is a child of the one before. *)
Fixpoint chained (store : list RenderNode) (path : list nat) : Prop :=
  match path with
  | p :: ((c :: _) as rest) =>
      (∃ n cs, store !! p = Some n ∧ children n = Some cs ∧ c ∈ cs)
      ∧ chained store rest
  | _ => True
  end.

(** The shape of the store between two events: children come after their
    parent in the store; every node is a root or the child of one node,
    once; the stacked nodes have a children array and kind of a container;
    the stack is a path that starts at a root. *)
Definition Structured (b : Builder) : Prop :=
  (∀ r n cs, heap b !! r = Some n → children n = Some cs →
             Forall (λ c, r < c < length (heap b))%nat cs)
  ∧ rootNodes b ++ allChildren (heap b) ≡ₚ seq 0 (length (heap b))
  ∧ Forall (λ r, ∃ n, heap b !! r = Some n ∧ is_Some (children n)
                      ∧ type n ≠ NText)
           (stack b)
  ∧ (∀ r, head (stack b) = Some r → r ∈ rootNodes b)
  ∧ chained (heap b) (stack b).

(** ** Well-typed style maps *)

(** The values that the parser writes under a key: a number for the sizes,
    [body] for the font family, [bold] or [normal] for the weight, a string
    for the rest. *)
Definition kindOk (key : StyleKey) (v : Value) : bool :=
  match key, v with
  | (fontSize | marginTop | marginBottom | padding), VNum _ => true
  | fontFamily, VStr s => s === js "body"
  | fontWeight, VStr s => (s === js "bold") || (s === js "normal")
  | (color | textAlign | backgroundColor | borderBottom | width), VStr _ =>
      true
  | _, _ => false
  end.

Definition Typed (st : Styles) : Prop :=
  ∀ key v, st !! key = Some v → kindOk key v = true.

(** The keys that the user-agent styles define. *)
Definition baselineKeys : list StyleKey :=
  [fontSize; fontFamily; fontWeight; color; textAlign; marginTop;
   marginBottom].

Definition Baseline (st : Styles) : Prop :=
  Typed st ∧ ∀ key, key ∈ baselineKeys → is_Some (st !! key).

(** What holds of every node of the store: its styles are well typed and
    define the baseline keys; a text node carries a collapsed text that is
    not blank and has no children array, any other node carries no text; a
    text node has the styles of the node it is a child of. *)
Definition NodesOk (b : Builder) : Prop :=
  (∀ r n, heap b !! r = Some n →
          Baseline (styles n)
          ∧ match type n with
            | NText =>
                (∃ raw, text n = Some (collapse raw)
                        ∧ trim (collapse raw) ≠ [])
                ∧ children n = None
            | _ => text n = None
            end)
  ∧ (∀ p parent cs c n,
       heap b !! p = Some parent → children parent = Some cs → c ∈ cs →
       heap b !! c = Some n → type n = NText → styles n = styles parent).

(** What [NodesOk] says of one node. *)
Definition nodeOk (n : RenderNode) : Prop :=
  Baseline (styles n)
  ∧ match type n with
    | NText =>
        (∃ raw, text n = Some (collapse raw) ∧ trim (collapse raw) ≠ [])
        ∧ children n = None
    | _ => text n = None
    end.

(** ** Balanced event streams *)

(** The open events after which [onopentag] pushes a node: the tag is not
    [style], [createNode] supports it, and it is not void. *)
Definition pushes (rules : list CssRule) (name : jsstring)
    (attribs : JsRecord) : bool :=
  negb (name === js "style")
  && match createNode rules name attribs with
     | Some _ => true
     | None => false
     end
  && negb (isVoidElement name).

(** The close events at which [onclosetag] pops: the test it makes. *)
Definition pops (name : jsstring) : bool :=
  negb (isVoidElement name) && negb (name === js "style").

(** Streams in which every open event that pushes is closed by a close
    event that pops, with a balanced stream in between; the other events
    stand anywhere.  The two tag names need not be the same. *)
Inductive Balanced (rules : list CssRule) : list Event → Prop :=
  | balanced_nil : Balanced rules []
  | balanced_text txt rest :
      Balanced rules rest → Balanced rules (TextEvent txt :: rest)
  | balanced_open_skip name attribs rest :
      pushes rules name attribs = false → Balanced rules rest →
      Balanced rules (OpenTag name attribs :: rest)
  | balanced_close_skip name rest :
      pops name = false → Balanced rules rest →
      Balanced rules (CloseTag name :: rest)
  | balanced_element name attribs inner closing rest :
      pushes rules name attribs = true → pops closing = true →
      Balanced rules inner → Balanced rules rest →
      Balanced rules
        (OpenTag name attribs :: inner ++ CloseTag closing :: rest).

(** ** Parsed declarations *)

(** A key or a value as [parseCss] stores it: not empty, trimmed, and
    without [:] or [;]. *)
Definition cleanPart (s : jsstring) : Prop :=
  s ≠ [] ∧ trim s = s ∧ without 58 s = true ∧ without 59 s = true.

Definition cleanEntry (kv : jsstring * jsstring) : Prop :=
  cleanPart (fst kv) ∧ cleanPart (snd kv).

(** One declaration applied to a style map. *)
Definition assignPair (st : Styles) (kv : jsstring * jsstring) : Styles :=
  assign st (fst kv) (snd kv).

(** The truthy key and value pairs of a declarations text, in order. *)
Definition declarationPairs (body : jsstring) : JsRecord :=
  omap keyValue (split 59 body).

(** The roots are elements (no text node stands at the top). *)
Definition RootsOk (b : Builder) : Prop :=
  Forall (λ r, ∃ n, heap b !! r = Some n ∧ type n ≠ NText) (rootNodes b).

(** The text that the loop over [exec] leaves unread: what follows the last
    match ([lastIndex] after the last successful [exec]); the whole text
    when nothing matches. *)
Fixpoint restLoop {M : Type} (matchHere : jsstring → option (M * jsstring))
    (fuel : nat) (s : jsstring) : jsstring :=
  match fuel with
  | O => s
  | S n =>
      match exec matchHere s with
      | None => s
      | Some (_, rest) => restLoop matchHere n rest
      end
  end.

Definition afterLastMatch {M : Type}
    (matchHere : jsstring → option (M * jsstring)) (s : jsstring) : jsstring :=
  restLoop matchHere (length s) s.


(* ===================================================================== *)
(** * Proofs *)
(* ===================================================================== *)

(** ** White-space collapsing *)

Lemma isNewlineTab_isSpace c : isNewlineTab c = true → isSpace c = true.
Proof.
  unfold isNewlineTab, isSpace. intros H.
  apply orb_true_iff in H as [H | H]; [apply orb_true_iff in H as [H | H] |];
    apply N.eqb_eq in H; subst c; reflexivity.
Qed.

Lemma replaceRuns_collapsed s : ∀ b, collapsed b (replaceRuns isSpace b s).
Proof.
  induction s as [| c r IH]; intros b; simpl; [exact I |].
  destruct (isSpace c) eqn:Hc.
  - destruct b; [apply IH |]. simpl. split; [reflexivity |].
    split; [reflexivity | apply IH].
  - simpl. rewrite Hc. apply IH.
Qed.

Lemma collapsed_replace_space s : ∀ b,
  collapsed b s → replaceRuns isSpace b s = s.
Proof.
  induction s as [| c r IH]; intros b; simpl; [reflexivity |].
  destruct (isSpace c) eqn:Hc.
  - intros (-> & -> & H). f_equal. apply IH, H.
  - intros H. f_equal. apply IH, H.
Qed.

Lemma collapsed_replace_newlineTab s : ∀ b b',
  collapsed b s → replaceRuns isNewlineTab b' s = s.
Proof.
  induction s as [| c r IH]; intros b b'; simpl; [reflexivity |].
  destruct (isSpace c) eqn:Hc.
  - intros (-> & -> & H). simpl. f_equal. eapply IH, H.
  - intros H. destruct (isNewlineTab c) eqn:Hn.
    + apply isNewlineTab_isSpace in Hn. congruence.
    + f_equal. eapply IH, H.
Qed.

(** C7.  Collapsing white space (every run of newline, carriage return or
    tab to one space, then every run of white space to one space) is
    idempotent: collapsing a collapsed text gives the same text. *)
Theorem collapse_idempotent (s : jsstring) :
  collapse (collapse s) = collapse s.
Proof.
  unfold collapse at 1.
  pose proof (replaceRuns_collapsed (replaceRuns isNewlineTab false s) false)
    as H.
  fold (collapse s) in H.
  rewrite (collapsed_replace_newlineTab _ false false H).
  apply collapsed_replace_space, H.
Qed.

(** The example of the specification: ["a\n\t  b"] collapses to ["a b"],
    which collapses to itself. *)
Example collapse_example :
  collapse [97; 10; 9; 32; 32; 98] = js "a b"
  ∧ collapse (js "a b") = js "a b".
Proof. split; reflexivity. Qed.

(** ** The cascade *)

(** C1.  For every element and every style key, the resolved style map
    [finalStyles] is the last-write-wins merge of three layers: the value of
    the inline [style] attribute if it sets the key, else the value left by
    the matching style-sheet rules if they set it, else the user-agent
    default of the tag. *)
Theorem finalStyles_cascade (rules : list CssRule) (tagName : jsstring)
    (attribs : JsRecord) (key : StyleKey) :
  finalStyles rules tagName attribs !! key =
    match inlineStyles attribs !! key with
    | Some v => Some v
    | None =>
        match cssStyles rules tagName attribs !! key with
        | Some v => Some v
        | None => baseStyles tagName !! key
        end
    end.
Proof.
  unfold finalStyles, spread. rewrite !lookup_union.
  destruct (inlineStyles attribs !! key), (cssStyles rules tagName attribs !! key),
    (baseStyles tagName !! key); reflexivity.
Qed.

(** The example of the specification: [<p style="color:red">] under the
    rule [p { color: blue }] is red, and keeps the bottom margin that the
    user agent gives to [p]. *)
Example finalStyles_example :
  let rules := parseCss (js "p { color: blue }") in
  let attribs := [(js "style", js "color:red")] in
  finalStyles rules (js "p") attribs !! color = Some (VStr (js "red"))
  ∧ cssStyles rules (js "p") attribs !! color = Some (VStr (js "blue"))
  ∧ finalStyles rules (js "p") attribs !! marginBottom
    = Some (VNum (NumLit 10)).
Proof. vm_compute. repeat split; reflexivity. Qed.

(** ** Rule order *)

Section RuleOrder.
Variables (tagName : jsstring) (classNames : list jsstring)
          (id : option jsstring).

Lemma ruleStep_lookup applied rule key :
  ruleStep tagName classNames id applied rule !! key =
    if matchesSelector (fst rule) tagName classNames id then
      match declarationStyles (snd rule) !! key with
      | Some v => Some v
      | None => applied !! key
      end
    else applied !! key.
Proof.
  unfold ruleStep, spread.
  destruct (matchesSelector _ _ _ _); [| reflexivity].
  rewrite lookup_union.
  destruct (declarationStyles (snd rule) !! key), (applied !! key);
    reflexivity.
Qed.

Lemma rules_silent_lookup rules key : ∀ applied,
  (∀ rule, rule ∈ rules →
           matchesSelector (fst rule) tagName classNames id = true →
           declarationStyles (snd rule) !! key = None) →
  fold_left (ruleStep tagName classNames id) rules applied !! key =
    applied !! key.
Proof.
  induction rules as [| rule rules IH]; intros applied Hsilent; simpl;
    [reflexivity |].
  rewrite IH.
  - rewrite ruleStep_lookup.
    destruct (matchesSelector _ _ _ _) eqn:Hm; [| reflexivity].
    rewrite (Hsilent rule); [reflexivity | left | exact Hm].
  - intros rule' Hin. apply Hsilent. now right.
Qed.

Lemma rules_fold_matching rules : ∀ applied,
  fold_left (ruleStep tagName classNames id) rules applied =
    fold_left (λ acc rule, spread acc (declarationStyles (snd rule)))
      (filter (λ r : CssRule,
                 matchesSelector (fst r) tagName classNames id = true)
              rules)
      applied.
Proof.
  induction rules as [| rule rules IH]; intros applied; [reflexivity |].
  rewrite filter_cons. simpl. rewrite IH. unfold ruleStep at 1.
  destruct (decide (matchesSelector (fst rule) tagName classNames id = true))
    as [Hm | Hm].
  - rewrite Hm. reflexivity.
  - apply not_true_is_false in Hm. rewrite Hm. reflexivity.
Qed.

(** C3.  The rules that match an element are applied over its style map in
    the order of the rule list, each overwriting the keys it sets; so for
    a key set by several matching rules the value of the last of them
    wins. *)
Theorem applyCssRules_later_rule_wins (before after : list CssRule)
    (rule : CssRule) (key : StyleKey) (v : Value) :
  matchesSelector (fst rule) tagName classNames id = true →
  declarationStyles (snd rule) !! key = Some v →
  (∀ later, later ∈ after →
     matchesSelector (fst later) tagName classNames id = true →
     declarationStyles (snd later) !! key = None) →
  applyCssRules (before ++ rule :: after) tagName classNames id !! key
    = Some v
  ∧ applyCssRules (before ++ rule :: after) tagName classNames id
    = fold_left (λ acc r, spread acc (declarationStyles (snd r)))
        (filter (λ r : CssRule,
                   matchesSelector (fst r) tagName classNames id = true)
                (before ++ rule :: after)) ∅.
Proof.
  intros Hm Hset Hsilent. split.
  - unfold applyCssRules. rewrite fold_left_app. simpl.
    rewrite rules_silent_lookup by exact Hsilent.
    rewrite ruleStep_lookup, Hm, Hset. reflexivity.
  - apply rules_fold_matching.
Qed.
End RuleOrder.

(** The example of the specification: [p{color:blue}] then
    [.x{color:green}] on [<p class="x">] gives green. *)
Lemma applyCssRules_later_rule_wins_example :
  applyCssRules ([(js "p", [(js "color", js "blue")])]
                   ++ (js ".x", [(js "color", js "green")]) :: [])
    (js "p") [js "x"] None !! color = Some (VStr (js "green"))
  ∧ applyCssRules ([(js "p", [(js "color", js "blue")])]
                   ++ (js ".x", [(js "color", js "green")]) :: [])
      (js "p") [js "x"] None
    = fold_left (λ acc r, spread acc (declarationStyles (snd r)))
        (filter (λ r : CssRule,
                   matchesSelector (fst r) (js "p") [js "x"] None = true)
                ([(js "p", [(js "color", js "blue")])]
                   ++ (js ".x", [(js "color", js "green")]) :: [])) ∅.
Proof.
  apply (applyCssRules_later_rule_wins (js "p") [js "x"] None
           [(js "p", [(js "color", js "blue")])] []
           (js ".x", [(js "color", js "green")]) color (VStr (js "green"))).
  - vm_compute. reflexivity.
  - vm_compute. reflexivity.
  - intros later Hin. inversion Hin.
Defined.

(** ** The tree builder *)

Lemma createNode_void rules name attribs node :
  createNode rules name attribs = Some node →
  (isVoidKind (type node) = true → children node = None)
  ∧ (isVoidElement name = false → isVoidKind (type node) = false).
Proof.
  unfold createNode.
  repeat (case_bool_decide; simpl;
          [try (intros [= <-]; subst name; simpl; split;
                [try reflexivity; discriminate
                | try reflexivity; vm_compute; discriminate]) |]);
    try discriminate;
    repeat match goal with
           | |- context [bool_decide ?P] => destruct (bool_decide P); simpl
           end;
    try discriminate;
    intros [= <-]; simpl; split; (reflexivity || discriminate).
Qed.

Lemma Forall_removelast {A} (P : A → Prop) (l : list A) :
  Forall P l → Forall P (removelast l).
Proof.
  induction 1 as [| x l Hx Hl IH]; simpl; [constructor |].
  destruct l; [constructor | constructor; assumption].
Qed.

Lemma Invariant_empty : Invariant emptyBuilder.
Proof. split; constructor. Qed.

(** Under the invariant, a non-empty stack has a top that the store knows. *)
Lemma top_ok b :
  Invariant b → (0 < length (stack b))%nat →
  ∃ p parent, top b = Ok (p, parent) ∧ last (stack b) = Some p
              ∧ heap b !! p = Some parent
              ∧ isVoidKind (type parent) = false.
Proof.
  intros [Hstack _] Hlen. unfold top.
  destruct (last (stack b)) as [p |] eqn:Hlast.
  - apply last_Some in Hlast as [l Hl]. rewrite Hl in Hstack.
    apply Forall_app in Hstack as [_ Hp].
    apply Forall_singleton in Hp as (parent & Hparent & Hkind).
    exists p, parent. rewrite Hparent. auto.
  - apply last_None in Hlast. rewrite Hlast in Hlen. simpl in Hlen. lia.
Qed.

(** Allocating [node] and pushing its reference on the children of the
    stack top keeps the invariant. *)
Lemma attach_child_invariant b p parent node :
  Invariant b → heap b !! p = Some parent →
  isVoidKind (type parent) = false →
  (isVoidKind (type node) = true → children node = None) →
  Invariant {| heap := <[p := pushChild (length (heap b)) parent]>
                         (heap b ++ [node]);
               rootNodes := rootNodes b; stack := stack b |}
  ∧ (<[p := pushChild (length (heap b)) parent]> (heap b ++ [node]))
      !! length (heap b) = Some node.
Proof.
  intros [Hstack Hheap] Hp Hkind Hnode.
  pose proof (lookup_lt_Some _ _ _ Hp) as Hlt.
  split; [split |]; simpl.
  - eapply Forall_impl; [exact Hstack |].
    intros r (n & Hn & Hk). simpl.
    destruct (decide (p = r)) as [-> | Hne].
    + exists (pushChild (length (heap b)) parent).
      rewrite list_lookup_insert_eq by (rewrite length_app; lia).
      split; [reflexivity | exact Hkind].
    + exists n. rewrite list_lookup_insert_ne by exact Hne.
      rewrite lookup_app_l by (eapply lookup_lt_Some; exact Hn). auto.
  - apply Forall_insert.
    + apply Forall_app. split; [exact Hheap |].
      apply Forall_singleton. exact Hnode.
    + simpl. rewrite Hkind. discriminate.
  - rewrite list_lookup_insert_ne by lia.
    apply list_lookup_middle. reflexivity.
Qed.

Lemma push_stack_invariant b r node :
  Invariant b → heap b !! r = Some node → isVoidKind (type node) = false →
  Invariant {| heap := heap b; rootNodes := rootNodes b;
               stack := stack b ++ [r] |}.
Proof.
  intros [Hstack Hheap] Hr Hkind. split; simpl; [| exact Hheap].
  apply Forall_app. split; [exact Hstack |].
  apply Forall_singleton. eauto.
Qed.

Lemma alloc_root_invariant b node :
  Invariant b →
  (isVoidKind (type node) = true → children node = None) →
  Invariant {| heap := heap b ++ [node];
               rootNodes := rootNodes b ++ [length (heap b)];
               stack := stack b |}.
Proof.
  intros [Hstack Hheap] Hnode. split; simpl.
  - eapply Forall_impl; [exact Hstack |].
    intros r (n & Hn & Hk). exists n.
    rewrite lookup_app_l by (eapply lookup_lt_Some; exact Hn). auto.
  - apply Forall_app. split; [exact Hheap |].
    apply Forall_singleton. exact Hnode.
Qed.

Lemma onopentag_ok rules b name attribs :
  Invariant b →
  ∃ b', onopentag rules b name attribs = Ok b' ∧ Invariant b'
        ∧ (isVoidElement name = true → stack b' = stack b).
Proof.
  intros Hinv. unfold onopentag.
  case_bool_decide; [eauto |].
  destruct (createNode rules name attribs) as [node |] eqn:Hnode; [| eauto].
  apply createNode_void in Hnode as [Hleaf Hkind].
  case_bool_decide as Hlen.
  - destruct (top_ok b Hinv Hlen) as (p & parent & -> & _ & Hp & Hpk).
    destruct (attach_child_invariant b p parent node Hinv Hp Hpk Hleaf)
      as [Hinv1 Hnew].
    destruct (isVoidElement name) eqn:Hvoid; simpl.
    + eauto.
    + eexists. split; [reflexivity |]. split; [| discriminate].
      apply (push_stack_invariant _ _ node Hinv1 Hnew). auto.
  - pose proof (alloc_root_invariant b node Hinv Hleaf) as Hinv1.
    destruct (isVoidElement name) eqn:Hvoid; simpl.
    + eauto.
    + eexists. split; [reflexivity |]. split; [| discriminate].
      apply (push_stack_invariant _ _ node Hinv1); simpl; [| auto].
      apply list_lookup_middle. reflexivity.
Qed.

Lemma ontext_ok b txt :
  Invariant b → ∃ b', ontext b txt = Ok b' ∧ Invariant b'.
Proof.
  intros Hinv. unfold ontext.
  case_bool_decide as Hlen; [| eauto].
  destruct (top_ok b Hinv Hlen) as (p & parent & -> & _ & Hp & Hpk).
  case_bool_decide; [| eauto].
  eexists. split; [reflexivity |].
  apply (attach_child_invariant b p parent _ Hinv Hp Hpk). discriminate.
Qed.

Lemma onclosetag_ok b name :
  Invariant b → ∃ b', onclosetag b name = Ok b' ∧ Invariant b'.
Proof.
  intros Hinv. unfold onclosetag.
  destruct (negb (isVoidElement name) && negb (name === js "style"));
    [| eauto].
  eexists. split; [reflexivity |].
  destruct Hinv as [Hstack Hheap]. split; simpl; [| exact Hheap].
  apply Forall_removelast, Hstack.
Qed.

Lemma handle_ok rules b e :
  Invariant b → ∃ b', handle rules b e = Ok b' ∧ Invariant b'.
Proof.
  intros Hinv. destruct e as [name attribs | txt | name]; simpl.
  - destruct (onopentag_ok rules b name attribs Hinv) as (b' & ? & ? & _).
    eauto.
  - apply ontext_ok, Hinv.
  - apply onclosetag_ok, Hinv.
Qed.

Lemma feed_ok rules events : ∀ b,
  Invariant b → ∃ b', feed rules events b = Ok b' ∧ Invariant b'.
Proof.
  induction events as [| e events IH]; intros b Hinv; simpl; [eauto |].
  destruct (handle_ok rules b e Hinv) as (b1 & -> & Hinv1).
  apply IH, Hinv1.
Qed.

Lemma feed_invariant rules events b :
  feed rules events emptyBuilder = Ok b → Invariant b.
Proof.
  intros Hfeed.
  destruct (feed_ok rules events emptyBuilder Invariant_empty)
    as (b' & Hb' & Hinv).
  congruence.
Qed.

(** C6.  In [<div><p><u></u><img src='x.png'>text</p></div>] the image and
    the text that follows it stand inside the [p], but the close event of
    the unsupported [u] has popped the [p] off the stack: both become
    children of the [div], after an empty [p].  The same events without the
    [u] pair put both under the [p].  (A tokenizer that reports a close
    event for the [img] right after its open event changes nothing: the
    close handler ignores void tags.) *)
Theorem text_after_void_lands_outside_its_parent :
  let attribs := [(js "src", js "x.png")] in
  let div := getUserAgentStyles (js "div") in
  let p := getUserAgentStyles (js "p") in
  let img := getUserAgentStyles (js "img") in
  let image := TreeNode NImage img None (Some (js "x.png")) None in
  built (feed [] [ OpenTag (js "div") []; OpenTag (js "p") [];
                   OpenTag (js "u") []; CloseTag (js "u");
                   OpenTag (js "img") attribs; TextEvent (js "text");
                   CloseTag (js "p"); CloseTag (js "div") ] emptyBuilder)
    = Some [TreeNode NBlock div None None
              (Some [ TreeNode NBlock p None None (Some []);
                      image;
                      TreeNode NText div (Some (js "text")) None None ])]
  ∧ built (feed [] [ OpenTag (js "div") []; OpenTag (js "p") [];
                     OpenTag (js "img") attribs; TextEvent (js "text");
                     CloseTag (js "p"); CloseTag (js "div") ] emptyBuilder)
    = Some [TreeNode NBlock div None None
              (Some [ TreeNode NBlock p None None
                        (Some [ image;
                                TreeNode NText p (Some (js "text")) None
                                         None ]) ])]
  ∧ built (feed [] [ OpenTag (js "div") []; OpenTag (js "p") [];
                     OpenTag (js "u") []; CloseTag (js "u");
                     OpenTag (js "img") attribs; CloseTag (js "img");
                     TextEvent (js "text");
                     CloseTag (js "p"); CloseTag (js "div") ] emptyBuilder)
    = Some [TreeNode NBlock div None None
              (Some [ TreeNode NBlock p None None (Some []);
                      image;
                      TreeNode NText div (Some (js "text")) None None ])].
Proof. vm_compute. repeat split; reflexivity. Qed.

(** C9.  A close event that arrives while the open-element stack is empty
    leaves the builder as it is and does not raise, and the builder goes
    through every sequence of events without raising. *)
Theorem excess_close_is_noop (rules : list CssRule) (prefix : list Event)
    (b : Builder) (name : jsstring) :
  feed rules prefix emptyBuilder = Ok b → stack b = [] →
  onclosetag b name = Ok b
  ∧ (∀ events, ∃ b', feed rules (CloseTag name :: events) b = Ok b')
  ∧ (∀ events, ∃ b', feed rules events emptyBuilder = Ok b').
Proof.
  intros Hfeed Hstack.
  assert (Hclose : onclosetag b name = Ok b).
  { unfold onclosetag. rewrite Hstack. destruct b; simpl in *. subst.
    destruct (_ && _); reflexivity. }
  split; [exact Hclose |]. split.
  - intros events. simpl. rewrite Hclose.
    destruct (feed_ok rules events b (feed_invariant _ _ _ Hfeed))
      as (b' & ? & _). eauto.
  - intros events.
    destruct (feed_ok rules events emptyBuilder Invariant_empty)
      as (b' & ? & _). eauto.
Qed.

Lemma excess_close_is_noop_witness :
  let b :=
    {| heap := [container NBlock (finalStyles [] (js "div") [])];
       rootNodes := [0%nat]; stack := [] |} in
  feed [] [OpenTag (js "div") []; CloseTag (js "div")] emptyBuilder = Ok b
  ∧ stack b = []
  ∧ onclosetag b (js "div") = Ok b
  ∧ (∀ events, ∃ b', feed [] (CloseTag (js "div") :: events) b = Ok b')
  ∧ (∀ events, ∃ b', feed [] events emptyBuilder = Ok b').
Proof.
  intros b.
  assert (Hfeed : feed [] [OpenTag (js "div") []; CloseTag (js "div")]
                    emptyBuilder = Ok b) by (vm_compute; reflexivity).
  split; [exact Hfeed |]. split; [reflexivity |].
  exact (excess_close_is_noop [] _ b (js "div") Hfeed eq_refl).
Defined.

(** C2.  The open event of an unsupported tag creates nothing, but its close
    event pops the stack all the same: in
    [<div><unknown></unknown>x</div>] the close of [unknown] pops the [div],
    and the text that follows finds the stack empty and is dropped, whereas
    the same events without the [unknown] pair give a [div] holding the
    text. *)
Theorem unsupported_close_pops_the_parent :
  let st := getUserAgentStyles (js "div") in
  built (feed [] [ OpenTag (js "div") []; OpenTag (js "unknown") [];
                   CloseTag (js "unknown"); TextEvent (js "x");
                   CloseTag (js "div") ] emptyBuilder)
    = Some [TreeNode NBlock st None None (Some [])]
  ∧ built (feed [] [ OpenTag (js "div") []; TextEvent (js "x");
                     CloseTag (js "div") ] emptyBuilder)
    = Some [TreeNode NBlock st None None
              (Some [TreeNode NText st (Some (js "x")) None None])].
Proof. vm_compute. split; reflexivity. Qed.

(** The example of the specification, in which nothing follows the close of
    the unsupported tag: [<div><unknown><span>t</span></unknown></div>]. *)
Example unsupported_wrapper_example :
  let st := getUserAgentStyles (js "div") in
  built (feed [] [ OpenTag (js "div") []; OpenTag (js "unknown") [];
                   OpenTag (js "span") []; TextEvent (js "t");
                   CloseTag (js "span"); CloseTag (js "unknown");
                   CloseTag (js "div") ] emptyBuilder)
    = Some [TreeNode NBlock st None None
              (Some [TreeNode NBlock st None None
                       (Some [TreeNode NText st (Some (js "t")) None None])])].
Proof. vm_compute. reflexivity. Qed.

(** The close event of any tag that is neither void nor [style] pops the
    stack, whether or not its open event pushed anything. *)
Lemma onclosetag_pops b name :
  isVoidElement name = false → name ≠ js "style" →
  onclosetag b name
  = Ok {| heap := heap b; rootNodes := rootNodes b;
          stack := removelast (stack b) |}.
Proof.
  intros Hvoid Hstyle. unfold onclosetag. rewrite Hvoid.
  rewrite bool_decide_eq_false_2 by exact Hstyle. reflexivity.
Qed.

(** The open event of an unsupported tag alone changes nothing. *)
Lemma onopentag_unsupported rules b name attribs :
  createNode rules name attribs = None →
  onopentag rules b name attribs = Ok b.
Proof.
  intros Hnone. unfold onopentag. rewrite Hnone.
  case_bool_decide; reflexivity.
Qed.

(** ** The conversion *)

Lemma feed_text_only rules events :
  Forall isTextEvent events → feed rules events emptyBuilder = Ok emptyBuilder.
Proof.
  induction 1 as [| e events He _ IH]; [reflexivity |].
  destruct e; try contradiction. exact IH.
Qed.

(** C8.  For every input, [parse] returns a node sequence and does not
    raise; when the input has no markup (the tokenizer delivers text events
    only, or none) the sequence is empty. *)
Theorem parse_never_throws (tokenize : jsstring → list Event) (g : Statics)
    (html : jsstring) (css : option jsstring) :
  (∃ forest, fst (parse tokenize g html css) = Ok forest)
  ∧ (Forall isTextEvent (tokenize html) →
     fst (parse tokenize g html css) = Ok {| nodes := []; roots := [] |}).
Proof.
  unfold parse. split.
  - destruct (feed_ok (parseCss (allCss html css)) (tokenize html)
                emptyBuilder Invariant_empty) as (b & Hb & _).
    simpl. rewrite Hb. eauto.
  - intros Htext. simpl. rewrite feed_text_only by exact Htext. reflexivity.
Qed.

(** A text without markup reaches the handlers as one text event. *)
Lemma parse_never_throws_witness :
  let tokenize := λ html : jsstring, [TextEvent html] in
  Forall isTextEvent (tokenize (js "hello"))
  ∧ fst (parse tokenize {| cssRules := [] |} (js "hello") None)
    = Ok {| nodes := []; roots := [] |}.
Proof.
  intros tokenize.
  assert (Htext : Forall isTextEvent (tokenize (js "hello")))
    by (repeat constructor).
  split; [exact Htext |].
  exact (proj2 (parse_never_throws tokenize {| cssRules := [] |}
                  (js "hello") None) Htext).
Defined.

(** C10.  The result of [parse] does not depend on the rule list a previous
    call left in the static field: the field is written from the arguments
    before any handler reads it, so a call repeated with the same arguments
    returns the same forest. *)
Theorem parse_ignores_previous_rules (tokenize : jsstring → list Event)
    (g g' : Statics) (html : jsstring) (css : option jsstring) :
  fst (parse tokenize g html css) = fst (parse tokenize g' html css)
  ∧ fst (parse tokenize (snd (parse tokenize g html css)) html css)
    = fst (parse tokenize g html css)
  ∧ snd (parse tokenize g html css)
    = {| cssRules := parseCss (allCss html css) |}.
Proof.
  unfold parse. simpl.
  destruct (feed (parseCss (allCss html css)) (tokenize html) emptyBuilder);
    simpl; repeat split; reflexivity.
Qed.

(** ** Declarations *)

Lemma split_app_sep sep a b :
  without sep a = true → split sep (a ++ sep :: b) = a :: split sep b.
Proof.
  induction a as [| c a IH]; simpl; intros Ha.
  - rewrite N.eqb_refl. reflexivity.
  - apply andb_true_iff in Ha as [Hc Ha]. apply negb_true_iff in Hc.
    rewrite Hc, IH by exact Ha. reflexivity.
Qed.

Lemma split_without sep a : without sep a = true → split sep a = [a].
Proof.
  induction a as [| c a IH]; simpl; intros Ha; [reflexivity |].
  apply andb_true_iff in Ha as [Hc Ha]. apply negb_true_iff in Hc.
  rewrite Hc, IH by exact Ha. reflexivity.
Qed.

Lemma keyValue_two_parts key value :
  without 58 key = true → without 58 value = true →
  keyValue (key ++ 58 :: value) =
    match trim key, trim value with
    | k :: key', v :: value' => Some (k :: key', v :: value')
    | _, _ => None
    end.
Proof.
  intros Hk Hv. unfold keyValue.
  rewrite split_app_sep, split_without by assumption. simpl.
  destruct (trim key), (trim value); reflexivity.
Qed.

Lemma keyValue_cut key value rest :
  without 58 key = true → without 58 value = true →
  keyValue (key ++ 58 :: value ++ 58 :: rest) = keyValue (key ++ 58 :: value).
Proof.
  intros Hk Hv. rewrite (keyValue_two_parts key value) by assumption.
  unfold keyValue. rewrite !split_app_sep by assumption. simpl.
  destruct (trim key), (trim value); reflexivity.
Qed.

(** C5, as the code has it.  Both parsers split a declaration on every [:]
    and keep the first two pieces: the key is the trimmed text before the
    first [:], the value the trimmed text between the first [:] and the
    second (or the end), and what follows a second [:] is dropped; a
    declaration whose key or value is missing or empty is discarded. *)
Theorem declaration_keeps_first_two_pieces (key value rest : jsstring)
    (styles : Styles) (declarations : JsRecord) :
  without 58 key = true → without 58 value = true →
  keyValue (key ++ 58 :: value) =
    match trim key, trim value with
    | k :: key', v :: value' => Some (k :: key', v :: value')
    | _, _ => None
    end
  ∧ keyValue (key ++ 58 :: value ++ 58 :: rest) = keyValue (key ++ 58 :: value)
  ∧ keyValue key = None
  ∧ styleStep styles (key ++ 58 :: value ++ 58 :: rest)
    = styleStep styles (key ++ 58 :: value)
  ∧ declarationStep declarations (key ++ 58 :: value ++ 58 :: rest)
    = declarationStep declarations (key ++ 58 :: value).
Proof.
  intros Hk Hv. split; [apply keyValue_two_parts; assumption |].
  split; [apply keyValue_cut; assumption |]. split.
  - unfold keyValue. rewrite split_without by exact Hk. simpl.
    destruct (trim key); reflexivity.
  - unfold styleStep, declarationStep.
    rewrite keyValue_cut by assumption. split; reflexivity.
Qed.

Lemma declaration_keeps_first_two_pieces_witness :
  without 58 (js "color") = true ∧ without 58 (js " a") = true
  ∧ keyValue (js "color" ++ 58 :: js " a") =
      match trim (js "color"), trim (js " a") with
      | k :: key', v :: value' => Some (k :: key', v :: value')
      | _, _ => None
      end
  ∧ keyValue (js "color" ++ 58 :: js " a" ++ 58 :: js "b")
    = keyValue (js "color" ++ 58 :: js " a")
  ∧ keyValue (js "color") = None
  ∧ styleStep ∅ (js "color" ++ 58 :: js " a" ++ 58 :: js "b")
    = styleStep ∅ (js "color" ++ 58 :: js " a")
  ∧ declarationStep [] (js "color" ++ 58 :: js " a" ++ 58 :: js "b")
    = declarationStep [] (js "color" ++ 58 :: js " a").
Proof.
  split; [reflexivity |]. split; [reflexivity |].
  apply (declaration_keeps_first_two_pieces (js "color") (js " a") (js "b"));
    reflexivity.
Defined.

(** The value of [color:a:b] is [a:b] when split on the first [:] only; the
    code keeps [a], in the inline parser and in the rule parser alike. *)
Lemma value_with_colon_is_cut :
  keyValueFirstColon (js "color:a:b") = Some (js "color", js "a:b")
  ∧ keyValue (js "color:a:b") = Some (js "color", js "a")
  ∧ parseStyles (Some (js "color:a:b")) !! color = Some (VStr (js "a"))
  ∧ parseCss (js "p{color:a:b}") = [(js "p", [(js "color", js "a")])].
Proof. vm_compute. repeat split; reflexivity. Qed.

(** ** The regular-expression loops *)

Section RegexFacts.
Context {M : Type} (matchHere : jsstring → option (M * jsstring)).
Hypothesis matchHere_shrinks :
  ∀ s m rest, matchHere s = Some (m, rest) → (length rest < length s)%nat.

Lemma exec_shrinks s : ∀ m rest,
  exec matchHere s = Some (m, rest) → (length rest < length s)%nat.
Proof.
  induction s as [| c s IH]; simpl; intros m rest.
  - destruct (matchHere []) as [[m' rest'] |] eqn:Hm; [| discriminate].
    intros [= <- <-]. apply matchHere_shrinks in Hm. exact Hm.
  - destruct (matchHere (c :: s)) as [[m' rest'] |] eqn:Hm.
    + intros [= <- <-]. apply matchHere_shrinks in Hm. exact Hm.
    + intros H. apply IH in H. lia.
Qed.

Lemma matchLoop_enough n : ∀ k s,
  (length s ≤ n)%nat → (length s ≤ k)%nat →
  matchLoop matchHere n s = matchLoop matchHere k s.
Proof.
  induction n as [| n IH]; intros k s Hn Hk.
  - destruct s; [| simpl in Hn; lia].
    destruct k; simpl; [reflexivity |].
    destruct (matchHere []) as [[m rest] |] eqn:Hm; [| reflexivity].
    apply matchHere_shrinks in Hm. simpl in Hm. lia.
  - simpl. destruct (exec matchHere s) as [[m rest] |] eqn:He.
    + pose proof (exec_shrinks _ _ _ He) as Hlt.
      destruct k; [lia |]. simpl. rewrite He. f_equal. apply IH; lia.
    + destruct k; simpl; [reflexivity | rewrite He; reflexivity].
Qed.

(** The loop, one round at a time. *)
Lemma matchAll_unfold s :
  matchAll matchHere s =
    match exec matchHere s with
    | None => []
    | Some (m, rest) => m :: matchAll matchHere rest
    end.
Proof.
  unfold matchAll. destruct s as [| c s].
  - simpl. destruct (matchHere []) as [[m rest] |] eqn:Hm; [| reflexivity].
    apply matchHere_shrinks in Hm. simpl in Hm. lia.
  - simpl. destruct (matchHere (c :: s)) as [[m rest] |] eqn:Hm.
    + f_equal. apply matchHere_shrinks in Hm. simpl in Hm.
      apply matchLoop_enough; lia.
    + destruct (exec matchHere s) as [[m rest] |] eqn:He; [| reflexivity].
      f_equal. apply exec_shrinks in He. apply matchLoop_enough; lia.
Qed.
End RegexFacts.

Lemma takeWhile_dropWhile p s : takeWhile p s ++ dropWhile p s = s.
Proof.
  induction s as [| c s IH]; simpl; [reflexivity |].
  destruct (p c); simpl; [rewrite IH |]; reflexivity.
Qed.

Lemma span_app_stop p a b :
  existsb (λ c, negb (p c)) a = true →
  takeWhile p (a ++ b) = takeWhile p a
  ∧ dropWhile p (a ++ b) = dropWhile p a ++ b.
Proof.
  induction a as [| c a IH]; simpl; [discriminate |].
  destruct (p c); simpl; [| auto].
  intros H. destruct (IH H) as [-> ->]. auto.
Qed.

Lemma span_app_all p a b :
  forallb p a = true →
  takeWhile p (a ++ b) = a ++ takeWhile p b
  ∧ dropWhile p (a ++ b) = dropWhile p b.
Proof.
  induction a as [| c a IH]; simpl; [auto |].
  destruct (p c); simpl; [| discriminate].
  intros H. destruct (IH H) as [-> ->]. auto.
Qed.

Lemma last_stops p (a : jsstring) x :
  last a = Some x → p x = false → existsb (λ c, negb (p c)) a = true.
Proof.
  intros Hlast Hx. apply last_Some in Hlast as [l ->].
  rewrite existsb_app. simpl. rewrite Hx. simpl. apply orb_true_r.
Qed.

Lemma ruleHere_suffix s m rest :
  ruleHere s = Some (m, rest) → ∃ pre, s = pre ++ rest ∧ pre ≠ [].
Proof.
  unfold ruleHere.
  pose proof (takeWhile_dropWhile notBrace s) as Hs.
  destruct (takeWhile notBrace s) as [| c sel]; [discriminate |].
  destruct (dropWhile notBrace s) as [| brace afterOpen]; [discriminate |].
  destruct (brace =? 123); [| discriminate].
  pose proof (takeWhile_dropWhile notClose afterOpen) as Ha.
  destruct (dropWhile notClose afterOpen) as [| x rest']; [discriminate |].
  destruct (ruleBody _); [| discriminate].
  intros [= <- <-].
  exists ((c :: sel) ++ brace :: takeWhile notClose afterOpen ++ [x]).
  split; [| discriminate].
  rewrite <- Hs, <- Ha at 1. rewrite <- !app_assoc. simpl.
  rewrite <- !app_assoc. reflexivity.
Qed.

Lemma ruleHere_shrinks s m rest :
  ruleHere s = Some (m, rest) → (length rest < length s)%nat.
Proof.
  intros H. apply ruleHere_suffix in H as (pre & -> & Hpre).
  rewrite length_app. destruct pre; [contradiction | simpl; lia].
Qed.

Lemma exec_ruleHere_suffix s : ∀ m rest,
  exec ruleHere s = Some (m, rest) → ∃ pre, s = pre ++ rest.
Proof.
  induction s as [| c s IH]; cbn [exec]; intros m rest.
  - destruct (ruleHere []) as [[m' rest'] |] eqn:Hm; [| discriminate].
    intros [= <- <-]. apply ruleHere_suffix in Hm as (pre & ? & _). eauto.
  - destruct (ruleHere (c :: s)) as [[m' rest'] |] eqn:Hm.
    + intros [= <- <-]. apply ruleHere_suffix in Hm as (pre & ? & _). eauto.
    + intros H. apply IH in H as [pre ->]. exists (c :: pre). reflexivity.
Qed.

(** ** Embedded style blocks, in order of appearance *)

Lemma startsWith_split pat : ∀ s,
  startsWith pat s = true → s = pat ++ drop (length pat) s.
Proof.
  induction pat as [| a pat IH]; intros s; simpl; [reflexivity |].
  destruct s as [| b s]; [discriminate |].
  intros H. apply andb_true_iff in H as [Hab Hs].
  apply N.eqb_eq in Hab. subst b. simpl. f_equal. apply IH, Hs.
Qed.

Lemma startsWith_app pat s : startsWith pat (pat ++ s) = true.
Proof.
  induction pat as [| a pat IH]; simpl; [reflexivity |].
  rewrite N.eqb_refl. exact IH.
Qed.

Lemma findSub_split pat s : ∀ before after,
  findSub pat s = Some (before, after) → s = before ++ pat ++ after.
Proof.
  induction s as [| c s IH]; intros before after; simpl.
  - destruct (startsWith pat []) eqn:Hp; [| discriminate].
    intros [= <- <-]. apply startsWith_split in Hp. exact Hp.
  - destruct (startsWith pat (c :: s)) eqn:Hp.
    + intros [= <- <-]. apply startsWith_split in Hp. exact Hp.
    + destruct (findSub pat s) as [[b a] |]; [| discriminate].
      intros [= <- <-]. simpl. f_equal. apply IH. reflexivity.
Qed.

Lemma findSub_hit pat s :
  startsWith pat s = true → findSub pat s = Some ([], drop (length pat) s).
Proof. destruct s; cbn [findSub]; intros ->; reflexivity. Qed.

Lemma findSub_miss pat c s :
  startsWith pat (c :: s) = false →
  findSub pat (c :: s) =
    match findSub pat s with
    | Some (before, after) => Some (c :: before, after)
    | None => None
    end.
Proof. cbn [findSub]. intros ->. reflexivity. Qed.

Lemma findSub_first c pat content post :
  without c content = true →
  findSub (c :: pat) (content ++ (c :: pat) ++ post) = Some (content, post).
Proof.
  induction content as [| d content IH]; intros Hc.
  - rewrite app_nil_l, findSub_hit by apply startsWith_app.
    rewrite drop_app_length. reflexivity.
  - simpl in Hc. apply andb_true_iff in Hc as [Hd Hc].
    apply negb_true_iff in Hd. rewrite N.eqb_sym in Hd.
    rewrite <- app_comm_cons, findSub_miss, (IH Hc); [reflexivity |].
    cbn [startsWith]. rewrite Hd. reflexivity.
Qed.

Lemma styleHere_shrinks s m rest :
  styleHere s = Some (m, rest) → (length rest < length s)%nat.
Proof.
  unfold styleHere. destruct (startsWith (js "<style") s) eqn:Hp;
    [| discriminate].
  apply startsWith_split in Hp.
  pose proof (takeWhile_dropWhile (λ c, negb (c =? 62)) (drop 6 s)) as Hd.
  destruct (dropWhile _ (drop 6 s)) as [| x afterOpen]; [discriminate |].
  intros Hf. apply findSub_split in Hf.
  change (length (js "<style")) with 6%nat in Hp.
  apply (f_equal length) in Hp, Hd, Hf.
  rewrite !length_app in Hp, Hd, Hf. simpl in Hp, Hd, Hf. lia.
Qed.

Lemma styleHere_other c s : (60 =? c) = false → styleHere (c :: s) = None.
Proof.
  intros Hc. unfold styleHere.
  change (js "<style") with (60 :: js "style").
  cbn [startsWith]. rewrite Hc. reflexivity.
Qed.

Lemma exec_styleHere_skip pre s :
  without 60 pre = true → exec styleHere (pre ++ s) = exec styleHere s.
Proof.
  induction pre as [| c pre IH]; intros Hpre; [reflexivity |].
  simpl in Hpre. apply andb_true_iff in Hpre as [Hc Hpre].
  apply negb_true_iff in Hc. rewrite N.eqb_sym in Hc.
  rewrite <- app_comm_cons. cbn [exec].
  rewrite (styleHere_other c _ Hc). apply IH, Hpre.
Qed.

Lemma extract_fold (ms : list jsstring) : ∀ css,
  fold_left (λ css m, css ++ m ++ newline) ms css =
    css ++ fold_left (λ css m, css ++ m ++ newline) ms [].
Proof.
  induction ms as [| m ms IH]; intros css; simpl.
  - rewrite app_nil_r. reflexivity.
  - rewrite IH, (IH (m ++ newline)), <- !app_assoc. reflexivity.
Qed.

(** [extractStyleTags], one match at a time. *)
Lemma extractStyleTags_unfold html :
  extractStyleTags html =
    match exec styleHere html with
    | None => []
    | Some (m, rest) => m ++ newline ++ extractStyleTags rest
    end.
Proof.
  unfold extractStyleTags.
  rewrite (matchAll_unfold styleHere styleHere_shrinks html).
  destruct (exec styleHere html) as [[m rest] |]; [| reflexivity].
  simpl. rewrite extract_fold, <- app_assoc. reflexivity.
Qed.

(** The first style block of a text gives the first piece of the embedded
    style text; the blocks that follow give the rest, in their order. *)
Lemma extractStyleTags_block pre attrs content post :
  without 60 pre = true → without 62 attrs = true →
  without 60 content = true →
  extractStyleTags
    (pre ++ js "<style" ++ attrs ++ 62 :: content ++ js "</style>" ++ post)
  = content ++ newline ++ extractStyleTags post.
Proof.
  intros Hpre Hattrs Hcontent.
  rewrite extractStyleTags_unfold, exec_styleHere_skip by exact Hpre.
  assert (Hhere : styleHere (js "<style" ++ attrs ++ 62 :: content
                             ++ js "</style>" ++ post)
                  = Some (content, post)).
  { unfold styleHere. rewrite startsWith_app.
    change 6%nat with (length (js "<style")). rewrite drop_app_length.
    destruct (span_app_all (λ c, negb (c =? 62)) attrs
                (62 :: content ++ js "</style>" ++ post) Hattrs) as [_ ->].
    simpl dropWhile.
    apply (findSub_first 60 (js "/style>") content post Hcontent). }
  assert (Hexec : exec styleHere (js "<style" ++ attrs ++ 62 :: content
                                  ++ js "</style>" ++ post)
                  = Some (content, post)).
  { destruct (js "<style" ++ attrs ++ 62 :: content ++ js "</style>" ++ post);
      cbn [exec]; rewrite Hhere; reflexivity. }
  rewrite Hexec. reflexivity.
Qed.

Example extractStyleTags_example :
  extractStyleTags
    (js "<p>a</p><style>p{a:b}</style><style type='x'>q{c:d}</style>")
  = js "p{a:b}" ++ newline ++ js "q{c:d}" ++ newline.
Proof. vm_compute. reflexivity. Qed.

(** ** Rule blocks in a concatenated text *)

Lemma stops_dropWhile p (a : jsstring) :
  existsb (λ c, negb (p c)) a = true → dropWhile p a ≠ [].
Proof.
  induction a as [| c a IH]; simpl; [discriminate |].
  destruct (p c); simpl; [exact IH | discriminate].
Qed.

Lemma all_dropWhile p (a : jsstring) :
  forallb p a = true → dropWhile p a = [].
Proof.
  induction a as [| c a IH]; simpl; [reflexivity |].
  destruct (p c); simpl; [exact IH | discriminate].
Qed.

(** A match found in a text that ends with [}] is found, the same, when
    more text follows. *)
Lemma ruleHere_app_closed a b :
  last a = Some 125 →
  ruleHere (a ++ b) =
    match ruleHere a with
    | Some (m, rest) => Some (m, rest ++ b)
    | None => None
    end.
Proof.
  intros Hlast. unfold ruleHere.
  assert (Hstop : existsb (λ c, negb (notBrace c)) a = true)
    by (apply last_stops with 125; [exact Hlast | reflexivity]).
  destruct (span_app_stop notBrace a b Hstop) as [-> ->].
  pose proof (takeWhile_dropWhile notBrace a) as Ha.
  pose proof (stops_dropWhile notBrace a Hstop) as Hne.
  destruct (takeWhile notBrace a) as [| c sel]; [reflexivity |].
  destruct (dropWhile notBrace a) as [| brace afterOpen]; [contradiction |].
  simpl. destruct (brace =? 123) eqn:Hb; [| reflexivity].
  apply N.eqb_eq in Hb. subst brace.
  assert (Hlast' : last afterOpen = Some 125).
  { rewrite <- Ha, last_app_cons in Hlast.
    apply last_cons_Some_ne in Hlast; [exact Hlast | discriminate]. }
  assert (Hstop' : existsb (λ c, negb (notClose c)) afterOpen = true)
    by (apply last_stops with 125; [exact Hlast' | reflexivity]).
  destruct (span_app_stop notClose afterOpen b Hstop') as [-> ->].
  pose proof (stops_dropWhile notClose afterOpen Hstop') as Hne'.
  destruct (dropWhile notClose afterOpen) as [| x rest]; [contradiction |].
  simpl. destruct (ruleBody _); reflexivity.
Qed.

Lemma exec_here s r : ruleHere s = Some r → exec ruleHere s = Some r.
Proof. intros H. destruct s; cbn [exec]; rewrite H; reflexivity. Qed.

Lemma exec_app_closed a : ∀ b,
  a = [] ∨ last a = Some 125 →
  exec ruleHere (a ++ b) =
    match exec ruleHere a with
    | Some (m, rest) => Some (m, rest ++ b)
    | None => exec ruleHere b
    end.
Proof.
  induction a as [| c a IH]; intros b Hclosed; [reflexivity |].
  destruct Hclosed as [Hnil | Hlast]; [discriminate |].
  pose proof (ruleHere_app_closed (c :: a) b Hlast) as Hhere.
  rewrite <- app_comm_cons in *. cbn [exec]. rewrite Hhere.
  destruct (ruleHere (c :: a)) as [[m rest] |]; [reflexivity |].
  apply IH. destruct a; [left; reflexivity | right].
  rewrite last_cons_cons in Hlast. exact Hlast.
Qed.

Lemma matchAll_app_closed n : ∀ a b,
  (length a ≤ n)%nat → a = [] ∨ last a = Some 125 →
  matchAll ruleHere (a ++ b) = matchAll ruleHere a ++ matchAll ruleHere b.
Proof.
  induction n as [| n IH]; intros a b Hn Hclosed;
    rewrite (matchAll_unfold ruleHere ruleHere_shrinks (a ++ b)),
            (matchAll_unfold ruleHere ruleHere_shrinks a),
            exec_app_closed by exact Hclosed;
    destruct (exec ruleHere a) as [[m rest] |] eqn:He;
    try (simpl; symmetry; apply (matchAll_unfold ruleHere ruleHere_shrinks)).
  - apply (exec_shrinks ruleHere ruleHere_shrinks) in He. lia.
  - simpl. f_equal.
    pose proof (exec_shrinks ruleHere ruleHere_shrinks _ _ _ He) as Hlt.
    apply exec_ruleHere_suffix in He as [pre Hpre].
    apply IH; [lia |].
    destruct rest as [| x rest]; [left; reflexivity | right].
    destruct Hclosed as [-> | Hlast]; [destruct pre; discriminate |].
    rewrite Hpre, last_app_cons in Hlast. exact Hlast.
Qed.

Lemma isSpace_notBrace c : isSpace c = true → notBrace c = true.
Proof.
  intros Hc. unfold notBrace, isBrace.
  destruct (c =? 123) eqn:H1; [apply N.eqb_eq in H1; subst; discriminate |].
  destruct (c =? 125) eqn:H2; [apply N.eqb_eq in H2; subst; discriminate |].
  reflexivity.
Qed.

Lemma allSpace_notBrace W : allSpace W = true → forallb notBrace W = true.
Proof.
  unfold allSpace. induction W as [| c W IH]; simpl; [reflexivity |].
  intros H. apply andb_true_iff in H as [Hc HW].
  rewrite (isSpace_notBrace c Hc), IH by exact HW. reflexivity.
Qed.

(** White space before a text goes into the first capture of a match that
    starts the text, and changes nothing else. *)
Lemma ruleHere_space_prefix W X :
  allSpace W = true → head X ≠ Some 123 →
  ruleHere (W ++ X) =
    match ruleHere X with
    | Some ((sel, body), rest) => Some ((W ++ sel, body), rest)
    | None => None
    end.
Proof.
  intros HW HX. unfold ruleHere.
  destruct (span_app_all notBrace W X (allSpace_notBrace W HW)) as [-> ->].
  pose proof (takeWhile_dropWhile notBrace X) as HXs.
  destruct (takeWhile notBrace X) as [| c sel].
  - rewrite app_nil_r. simpl in HXs. rewrite HXs.
    destruct W as [| w W]; [reflexivity |].
    destruct X as [| x X]; [reflexivity |].
    destruct (x =? 123) eqn:Hx; [| reflexivity].
    apply N.eqb_eq in Hx. subst x. contradiction HX. reflexivity.
  - destruct (W ++ c :: sel) as [| c' sel'] eqn:HW';
      [destruct W; discriminate |].
    destruct (dropWhile notBrace X) as [| brace afterOpen]; [reflexivity |].
    destruct (brace =? 123); [| reflexivity].
    destruct (dropWhile notClose afterOpen); [reflexivity |].
    destruct (ruleBody _); rewrite ?HW'; reflexivity.
Qed.

Lemma exec_space_prefix W : ∀ X,
  allSpace W = true → head X ≠ Some 123 →
  exec ruleHere (W ++ X) =
    match ruleHere X with
    | Some ((sel, body), rest) => Some ((W ++ sel, body), rest)
    | None => exec ruleHere X
    end.
Proof.
  induction W as [| w W IH]; intros X HW HX.
  - simpl. destruct (ruleHere X) as [[[sel body] rest] |] eqn:He;
      [apply exec_here, He | reflexivity].
  - pose proof (ruleHere_space_prefix (w :: W) X HW HX) as Hhere.
    rewrite <- app_comm_cons in *. cbn [exec]. rewrite Hhere.
    simpl in HW. apply andb_true_iff in HW as [_ HW].
    rewrite (IH X HW HX).
    destruct (ruleHere X) as [[[sel body] rest] |]; reflexivity.
Qed.

Lemma trim_space_prefix W s : allSpace W = true → trim (W ++ s) = trim s.
Proof.
  intros HW. unfold trim, trimStart.
  destruct (span_app_all isSpace W s HW) as [_ ->]. reflexivity.
Qed.

Lemma parseCss_space_prefix W X :
  allSpace W = true → head X ≠ Some 123 → parseCss (W ++ X) = parseCss X.
Proof.
  intros HW HX. unfold parseCss.
  rewrite (matchAll_unfold ruleHere ruleHere_shrinks (W ++ X)),
          (matchAll_unfold ruleHere ruleHere_shrinks X),
          exec_space_prefix by assumption.
  destruct (ruleHere X) as [[[sel body] rest] |] eqn:He; [| reflexivity].
  rewrite (exec_here _ _ He). simpl.
  rewrite trim_space_prefix by exact HW. reflexivity.
Qed.

Lemma exec_no_brace s : forallb notBrace s = true → exec ruleHere s = None.
Proof.
  induction s as [| c s IH]; [reflexivity |].
  intros Hs. cbn [exec]. unfold ruleHere at 1.
  rewrite (all_dropWhile notBrace (c :: s) Hs).
  simpl in Hs. apply andb_true_iff in Hs as [_ Hs].
  destruct (takeWhile notBrace (c :: s)); apply IH, Hs.
Qed.

Lemma parseCss_space W : allSpace W = true → parseCss W = [].
Proof.
  intros HW. unfold parseCss.
  rewrite (matchAll_unfold ruleHere ruleHere_shrinks W),
          exec_no_brace by (apply allSpace_notBrace, HW).
  reflexivity.
Qed.

Lemma parseCss_app_closed a b :
  a = [] ∨ last a = Some 125 → parseCss (a ++ b) = parseCss a ++ parseCss b.
Proof.
  intros Hclosed. unfold parseCss.
  rewrite (matchAll_app_closed (length a)) by (lia || exact Hclosed).
  apply map_app.
Qed.

Lemma forallb_rev (p : N → bool) (l : jsstring) :
  forallb p (rev l) = forallb p l.
Proof.
  induction l as [| c l IH]; simpl; [reflexivity |].
  rewrite forallb_app, IH. simpl. rewrite andb_true_r. apply andb_comm.
Qed.

Lemma forallb_takeWhile p (l : jsstring) : forallb p (takeWhile p l) = true.
Proof.
  induction l as [| c l IH]; simpl; [reflexivity |].
  destruct (p c) eqn:Hc; simpl; [rewrite Hc; exact IH | reflexivity].
Qed.

(** A text is its [trimEnd] followed by white space. *)
Lemma trimEnd_split s : ∃ W, s = trimEnd s ++ W ∧ allSpace W = true.
Proof.
  exists (rev (takeWhile isSpace (rev s))). unfold trimEnd, allSpace. split.
  - rewrite <- rev_app_distr, takeWhile_dropWhile, rev_involutive.
    reflexivity.
  - rewrite forallb_rev. apply forallb_takeWhile.
Qed.

Lemma allCss_both html css :
  trim (extractStyleTags html) ≠ [] → trim css ≠ [] →
  allCss html (Some css) = extractStyleTags html ++ newline ++ css.
Proof.
  intros He Hc. unfold allCss. simpl default.
  rewrite !filter_cons, filter_nil, !decide_True by assumption.
  reflexivity.
Qed.

Lemma dropWhile_nil_all p (l : jsstring) :
  dropWhile p l = [] → forallb p l = true.
Proof.
  induction l as [| c l IH]; simpl; [reflexivity |].
  destruct (p c); simpl; [exact IH | discriminate].
Qed.

Lemma dropWhile_head p (l : jsstring) c r :
  dropWhile p l = c :: r → p c = false.
Proof.
  induction l as [| d l IH]; simpl; [discriminate |].
  destruct (p d) eqn:Hd; [exact IH | congruence].
Qed.

Lemma trim_nil_allSpace s : trim s = [] → allSpace s = true.
Proof.
  unfold trim, trimEnd, trimStart. intros H.
  apply (f_equal (@rev N)) in H. rewrite rev_involutive in H. simpl in H.
  apply dropWhile_nil_all in H. rewrite forallb_rev in H.
  destruct (dropWhile isSpace s) as [| c r] eqn:Hd.
  - apply dropWhile_nil_all, Hd.
  - apply dropWhile_head in Hd. simpl in H. rewrite Hd in H. discriminate.
Qed.

Lemma allSpace_trimEnd s : allSpace s = true → trimEnd s = [].
Proof.
  intros H. unfold trimEnd.
  rewrite all_dropWhile by (rewrite forallb_rev; exact H). reflexivity.
Qed.

Lemma trim_nonempty s x : last (trimEnd s) = Some x → trim s ≠ [].
Proof.
  intros Hlast Htrim.
  rewrite (allSpace_trimEnd s (trim_nil_allSpace s Htrim)) in Hlast.
  discriminate.
Qed.

(** What the rules of a list leave for a key: the value of the rules
    themselves if they set it, else what was there before. *)
Lemma rules_fold_lookup tagName classNames id key rules : ∀ applied,
  fold_left (ruleStep tagName classNames id) rules applied !! key =
    match fold_left (ruleStep tagName classNames id) rules ∅ !! key with
    | Some v => Some v
    | None => applied !! key
    end.
Proof.
  induction rules as [| rule rules IH] using rev_ind; intros applied.
  - simpl. rewrite lookup_empty. reflexivity.
  - rewrite !fold_left_app. simpl. rewrite !ruleStep_lookup.
    destruct (matchesSelector _ _ _ _); [| apply IH].
    destruct (declarationStyles (snd rule) !! key); [reflexivity | apply IH].
Qed.

Lemma applyCssRules_app first second tagName classNames id key :
  applyCssRules (first ++ second) tagName classNames id !! key =
    match applyCssRules second tagName classNames id !! key with
    | Some v => Some v
    | None => applyCssRules first tagName classNames id !! key
    end.
Proof.
  unfold applyCssRules. rewrite fold_left_app. apply rules_fold_lookup.
Qed.

(** ** The rules of a text that is continued *)

Section RemainderFacts.
Context {M : Type} (matchHere : jsstring → option (M * jsstring)).
Hypothesis matchHere_shrinks :
  ∀ s m rest, matchHere s = Some (m, rest) → (length rest < length s)%nat.

Lemma restLoop_enough n : ∀ k s,
  (length s ≤ n)%nat → (length s ≤ k)%nat →
  restLoop matchHere n s = restLoop matchHere k s.
Proof.
  induction n as [| n IH]; intros k s Hn Hk.
  - destruct k; simpl; [reflexivity |].
    destruct (exec matchHere s) as [[m rest] |] eqn:He; [| reflexivity].
    apply (exec_shrinks matchHere matchHere_shrinks) in He. lia.
  - simpl. destruct (exec matchHere s) as [[m rest] |] eqn:He.
    + pose proof (exec_shrinks matchHere matchHere_shrinks _ _ _ He) as Hlt.
      destruct k; [lia |]. simpl. rewrite He. apply IH; lia.
    + destruct k; simpl; [reflexivity | rewrite He; reflexivity].
Qed.

Lemma afterLastMatch_unfold s :
  afterLastMatch matchHere s =
    match exec matchHere s with
    | None => s
    | Some (_, rest) => afterLastMatch matchHere rest
    end.
Proof.
  unfold afterLastMatch.
  destruct (exec matchHere s) as [[m rest] |] eqn:He.
  - pose proof (exec_shrinks matchHere matchHere_shrinks _ _ _ He) as Hlt.
    destruct (length s) as [| n] eqn:Hlen; [lia |].
    simpl. rewrite He. apply restLoop_enough; lia.
  - destruct (length s); simpl; [| rewrite He]; reflexivity.
Qed.
End RemainderFacts.

Lemma dropWhile_stops p (a : jsstring) :
  dropWhile p a ≠ [] → existsb (λ c, negb (p c)) a = true.
Proof.
  induction a as [| c a IH]; simpl; [contradiction |].
  destruct (p c); simpl; [exact IH | reflexivity].
Qed.

Lemma notBrace_notClose s :
  forallb notBrace s = true → forallb notClose s = true.
Proof.
  induction s as [| c s IH]; simpl; [reflexivity |].
  intros H. apply andb_true_iff in H as [Hc Hs]. rewrite (IH Hs), andb_true_r.
  unfold notBrace, isBrace in Hc. unfold notClose.
  destruct (c =? 125); [| reflexivity].
  rewrite orb_true_r in Hc. discriminate.
Qed.

Lemma all_no_stop p (s : jsstring) :
  forallb p s = true → existsb (λ c, negb (p c)) s = false.
Proof.
  induction s as [| c s IH]; simpl; [reflexivity |].
  intros H. apply andb_true_iff in H as [-> Hs]. apply IH, Hs.
Qed.

(** A match needs a closing brace: where the text has none left, the
    matcher fails; where it has one, the matcher does not look beyond it. *)
Lemma ruleHere_app a b :
  existsb (λ c, negb (notClose c)) a = true →
  ruleHere (a ++ b) =
    match ruleHere a with
    | Some (m, rest) => Some (m, rest ++ b)
    | None => None
    end.
Proof.
  intros Hclose. unfold ruleHere.
  pose proof (takeWhile_dropWhile notBrace a) as Ha.
  pose proof (forallb_takeWhile notBrace a) as Hsel.
  destruct (dropWhile notBrace a) as [| brace afterOpen] eqn:Hd.
  { rewrite app_nil_r in Ha. rewrite Ha in Hsel.
    rewrite (all_no_stop _ _ (notBrace_notClose _ Hsel)) in Hclose.
    discriminate. }
  assert (Hstop : existsb (λ c, negb (notBrace c)) a = true)
    by (apply dropWhile_stops; rewrite Hd; discriminate).
  destruct (span_app_stop notBrace a b Hstop) as [-> ->]. rewrite Hd.
  destruct (takeWhile notBrace a) as [| c sel]; [reflexivity |].
  simpl. destruct (brace =? 123) eqn:Hb; [| reflexivity].
  pose proof (takeWhile_dropWhile notClose afterOpen) as Hbody.
  destruct (dropWhile notClose afterOpen) as [| x rest] eqn:Hd'.
  { exfalso. rewrite app_nil_r in Hbody.
    pose proof (forallb_takeWhile notClose afterOpen) as Hall.
    rewrite Hbody in Hall.
    apply N.eqb_eq in Hb. subst brace.
    rewrite <- Ha, existsb_app in Hclose.
    rewrite (all_no_stop _ _ (notBrace_notClose _ Hsel)) in Hclose.
    cbn [existsb orb] in Hclose.
    rewrite (all_no_stop _ _ Hall) in Hclose. discriminate. }
  assert (Hstop' : existsb (λ c, negb (notClose c)) afterOpen = true)
    by (apply dropWhile_stops; rewrite Hd'; discriminate).
  destruct (span_app_stop notClose afterOpen b Hstop') as [-> ->].
  rewrite Hd'. simpl. destruct (ruleBody _); reflexivity.
Qed.

Lemma ruleHere_closes a m rest :
  ruleHere a = Some (m, rest) → existsb (λ c, negb (notClose c)) a = true.
Proof.
  unfold ruleHere. intros H.
  pose proof (takeWhile_dropWhile notBrace a) as Ha.
  destruct (takeWhile notBrace a) as [| c sel]; [discriminate |].
  destruct (dropWhile notBrace a) as [| brace afterOpen]; [discriminate |].
  destruct (brace =? 123); [| discriminate].
  destruct (dropWhile notClose afterOpen) as [| x rest'] eqn:Hd;
    [discriminate |].
  rewrite <- Ha, existsb_app. simpl.
  rewrite (dropWhile_stops notClose afterOpen)
    by (rewrite Hd; discriminate).
  rewrite !orb_true_r. reflexivity.
Qed.

Lemma exec_closes a : ∀ m rest,
  exec ruleHere a = Some (m, rest) → existsb (λ c, negb (notClose c)) a = true.
Proof.
  induction a as [| c a IH]; cbn [exec]; intros m rest.
  - destruct (ruleHere []) as [[m' rest'] |] eqn:Hm; [| discriminate].
    intros _. apply ruleHere_closes in Hm. exact Hm.
  - destruct (ruleHere (c :: a)) as [[m' rest'] |] eqn:Hm.
    + intros _. apply ruleHere_closes in Hm. exact Hm.
    + intros H. apply IH in H. simpl. rewrite H. apply orb_true_r.
Qed.

(** A match found in a text is found, the same, when more text follows. *)
Lemma exec_app_some a : ∀ b m rest,
  exec ruleHere a = Some (m, rest) →
  exec ruleHere (a ++ b) = Some (m, rest ++ b).
Proof.
  induction a as [| c a IH]; intros b m rest He.
  - cbn [exec] in He.
    destruct (ruleHere []) as [[m' rest'] |] eqn:Hm; [| discriminate].
    apply ruleHere_closes in Hm. discriminate.
  - pose proof (exec_closes _ _ _ He) as Hclose.
    pose proof (ruleHere_app (c :: a) b Hclose) as Hhere.
    rewrite <- app_comm_cons in *. cbn [exec] in *. rewrite Hhere.
    destruct (ruleHere (c :: a)) as [[m' rest'] |].
    + injection He as <- <-. reflexivity.
    + apply IH, He.
Qed.

Lemma matchAll_app n : ∀ a b,
  (length a ≤ n)%nat →
  matchAll ruleHere (a ++ b) =
    matchAll ruleHere a ++ matchAll ruleHere (afterLastMatch ruleHere a ++ b).
Proof.
  induction n as [| n IH]; intros a b Hn;
    rewrite (matchAll_unfold ruleHere ruleHere_shrinks a),
            (afterLastMatch_unfold ruleHere ruleHere_shrinks a);
    destruct (exec ruleHere a) as [[m rest] |] eqn:He;
    try reflexivity.
  - apply (exec_shrinks ruleHere ruleHere_shrinks) in He. lia.
  - pose proof (exec_shrinks ruleHere ruleHere_shrinks _ _ _ He) as Hlt.
    rewrite (matchAll_unfold ruleHere ruleHere_shrinks (a ++ b)),
            (exec_app_some a b m rest He).
    simpl. f_equal. apply IH. lia.
Qed.

(** The rules of a text that is continued: the rules of the text itself,
    then those of what it leaves unread together with the continuation. *)
Lemma parseCss_app a b :
  parseCss (a ++ b) =
    parseCss a ++ parseCss (afterLastMatch ruleHere a ++ b).
Proof.
  unfold parseCss. rewrite (matchAll_app (length a)) by lia. apply map_app.
Qed.

Lemma rules_set_lookup tagName classNames id key rules : ∀ applied rule,
  rule ∈ rules →
  matchesSelector (fst rule) tagName classNames id = true →
  is_Some (declarationStyles (snd rule) !! key) →
  is_Some (fold_left (ruleStep tagName classNames id) rules applied !! key).
Proof.
  induction rules as [| r rules IH] using rev_ind; intros applied rule Hin Hm Hset.
  - apply elem_of_nil in Hin. contradiction.
  - rewrite fold_left_app. simpl. rewrite ruleStep_lookup.
    apply elem_of_app in Hin as [Hin | Hin].
    + destruct (matchesSelector (fst r) _ _ _); [| eapply IH; eassumption].
      destruct (declarationStyles (snd r) !! key); [eauto |].
      eapply IH; eassumption.
    + apply list_elem_of_singleton in Hin. subst r.
      rewrite Hm. destruct Hset as [v ->]. eauto.
Qed.

Lemma parseCss_afterLastMatch n : ∀ s,
  (length s ≤ n)%nat → parseCss (afterLastMatch ruleHere s) = [].
Proof.
  induction n as [| n IH]; intros s Hn;
    rewrite (afterLastMatch_unfold ruleHere ruleHere_shrinks s);
    destruct (exec ruleHere s) as [[m rest] |] eqn:He.
  - apply (exec_shrinks ruleHere ruleHere_shrinks) in He. lia.
  - unfold parseCss.
    rewrite (matchAll_unfold ruleHere ruleHere_shrinks s), He. reflexivity.
  - apply IH. apply (exec_shrinks ruleHere ruleHere_shrinks) in He. lia.
  - unfold parseCss.
    rewrite (matchAll_unfold ruleHere ruleHere_shrinks s), He. reflexivity.
Qed.

Lemma parseCss_closed_then a css :
  last (trimEnd a) = Some 125 → head css ≠ Some 123 →
  parseCss (a ++ newline ++ css) = parseCss a ++ parseCss css.
Proof.
  intros Hlast Hhead.
  destruct (trimEnd_split a) as (W & HE & HW).
  remember (trimEnd a) as closed eqn:Heq. clear Heq.
  subst a. rewrite <- app_assoc.
  rewrite (parseCss_app_closed closed (W ++ newline ++ css)),
          (parseCss_app_closed closed W) by (right; exact Hlast).
  rewrite (parseCss_space W HW), app_nil_r. f_equal.
  rewrite app_assoc. apply parseCss_space_prefix; [| exact Hhead].
  unfold allSpace. rewrite forallb_app. unfold allSpace in HW.
  rewrite HW. reflexivity.
Qed.

(** C4.  When the embedded style text and the external text are both
    non-blank, the style text that is parsed is the embedded text (the
    content of the first style block, a newline, then the same for the
    blocks that follow, in their order), a newline, then the external text.
    The rules of the embedded text come first in the rule list, unchanged;
    the rules after them are read from what the embedded text leaves after
    its last rule (which holds no rule of its own) together with the
    external text, so each of them is closed in the external text.  A key
    that one of these later rules sets for an element has the value the
    later rules give it, whatever the embedded rules say.  When the embedded text ends, white
    space apart, with the [}] of a block and the external text does not
    begin with [{], the later rules are the rules of the external text read
    alone. *)
Theorem external_rules_win_ties (html css tagName : jsstring)
    (classNames : list jsstring) (id : option jsstring) (key : StyleKey) :
  trim (extractStyleTags html) ≠ [] → trim css ≠ [] →
  let embedded := extractStyleTags html in
  let rules := parseCss (allCss html (Some css)) in
  let leftover := afterLastMatch ruleHere embedded in
  let later := parseCss (leftover ++ newline ++ css) in
  allCss html (Some css) = embedded ++ newline ++ css
  ∧ embedded = match exec styleHere html with
               | Some (content, rest) =>
                   content ++ newline ++ extractStyleTags rest
               | None => []
               end
  ∧ rules = parseCss embedded ++ later
  ∧ parseCss leftover = []
  ∧ applyCssRules rules tagName classNames id !! key
    = match applyCssRules later tagName classNames id !! key with
      | Some v => Some v
      | None => applyCssRules (parseCss embedded) tagName classNames id !! key
      end
  ∧ (∀ rule, rule ∈ later →
       matchesSelector (fst rule) tagName classNames id = true →
       is_Some (declarationStyles (snd rule) !! key) →
       is_Some (applyCssRules later tagName classNames id !! key)
       ∧ applyCssRules rules tagName classNames id !! key
         = applyCssRules later tagName classNames id !! key)
  ∧ (last (trimEnd embedded) = Some 125 → head css ≠ Some 123 →
     later = parseCss css).
Proof.
  intros Hemb Hcss embedded rules leftover later.
  assert (Hall : allCss html (Some css) = embedded ++ newline ++ css)
    by (apply allCss_both; assumption).
  assert (Hrules : rules = parseCss embedded ++ later)
    by (unfold rules; rewrite Hall; apply parseCss_app).
  assert (Hkey : applyCssRules rules tagName classNames id !! key
                 = match applyCssRules later tagName classNames id !! key with
                   | Some v => Some v
                   | None => applyCssRules (parseCss embedded) tagName
                               classNames id !! key
                   end)
    by (rewrite Hrules; apply applyCssRules_app).
  split; [exact Hall |]. split; [apply extractStyleTags_unfold |].
  split; [exact Hrules |].
  split; [apply (parseCss_afterLastMatch (length embedded)); lia |].
  split; [exact Hkey |]. split.
  - intros rule Hin Hm Hset.
    assert (Hsome : is_Some (applyCssRules later tagName classNames id
                               !! key))
      by (eapply rules_set_lookup; eassumption).
    split; [exact Hsome |].
    rewrite Hkey. destruct Hsome as [v ->]. reflexivity.
  - intros Hlast Hhead.
    apply (app_inv_head (parseCss embedded)).
    rewrite <- Hrules. unfold rules. rewrite Hall.
    apply parseCss_closed_then; assumption.
Qed.

Lemma external_rules_win_ties_witness :
  let html := js "<style>p{color:blue}</style><p class='x'>t</p>" in
  let css := js ".x{color:red}" in
  let embedded := extractStyleTags html in
  let rules := parseCss (allCss html (Some css)) in
  let leftover := afterLastMatch ruleHere embedded in
  let later := parseCss (leftover ++ newline ++ css) in
  trim (extractStyleTags html) ≠ [] ∧ trim css ≠ []
  ∧ allCss html (Some css) = embedded ++ newline ++ css
  ∧ embedded = match exec styleHere html with
               | Some (content, rest) =>
                   content ++ newline ++ extractStyleTags rest
               | None => []
               end
  ∧ rules = parseCss embedded ++ later
  ∧ parseCss leftover = []
  ∧ applyCssRules rules (js "p") [js "x"] None !! color
    = match applyCssRules later (js "p") [js "x"] None !! color with
      | Some v => Some v
      | None => applyCssRules (parseCss embedded) (js "p") [js "x"] None
                  !! color
      end
  ∧ (∀ rule, rule ∈ later →
       matchesSelector (fst rule) (js "p") [js "x"] None = true →
       is_Some (declarationStyles (snd rule) !! color) →
       is_Some (applyCssRules later (js "p") [js "x"] None !! color)
       ∧ applyCssRules rules (js "p") [js "x"] None !! color
         = applyCssRules later (js "p") [js "x"] None !! color)
  ∧ (last (trimEnd embedded) = Some 125 → head css ≠ Some 123 →
     later = parseCss css).
Proof.
  intros html css embedded rules leftover later.
  assert (H1 : trim (extractStyleTags html) ≠ [])
    by (vm_compute; discriminate).
  assert (H2 : trim css ≠ []) by (vm_compute; discriminate).
  split; [exact H1 |]. split; [exact H2 |].
  exact (external_rules_win_ties html css (js "p") [js "x"] None color
           H1 H2).
Defined.

(** An embedded [p{color:blue}] and an external [.x{color:red}] both match
    [<p class='x'>] and both set its colour: the element is red. *)
Example external_rule_wins_example :
  let html := js "<style>p{color:blue}</style><p class='x'>t</p>" in
  let css := js ".x{color:red}" in
  parseCss (allCss html (Some css))
    = [ (js "p", [(js "color", js "blue")]);
        (js ".x", [(js "color", js "red")]) ]
  ∧ finalStyles (parseCss (allCss html (Some css))) (js "p")
      [(js "class", js "x")] !! color
    = Some (VStr (js "red")).
Proof. vm_compute. split; reflexivity. Qed.

(** An external text that begins with a block without selector: the newline
    that joins the two texts becomes the selector of that block, and the
    external [p{color:red}] still comes after the embedded rule. *)
Example external_text_starting_with_a_brace :
  let html := js "<style>p{color:blue}</style><p>t</p>" in
  let css := js "{a:b}p{color:red}" in
  parseCss (allCss html (Some css))
    = [ (js "p", [(js "color", js "blue")]);
        ([], [(js "a", js "b")]);
        (js "p", [(js "color", js "red")]) ]
  ∧ finalStyles (parseCss (allCss html (Some css))) (js "p") [] !! color
    = Some (VStr (js "red")).
Proof. vm_compute. split; reflexivity. Qed.

(** Text left after the last embedded rule goes into the selector of the
    rule that follows, as it does between two rules of one style text: with
    a comment after the embedded [p{color:blue}], the rule list holds one
    rule for [p], and the second rule, whose selector begins with the
    comment, matches no element. *)
Example leftover_text_joins_next_selector :
  let html := js "<style>p{color:blue}/*x*/</style><p>t</p>" in
  let css := js "p{color:red}" in
  afterLastMatch ruleHere (extractStyleTags html) = js "/*x*/" ++ newline
  ∧ parseCss (allCss html (Some css))
    = [ (js "p", [(js "color", js "blue")]);
        (js "/*x*/" ++ newline ++ newline ++ js "p",
         [(js "color", js "red")]) ]
  ∧ parseCss (js "p{color:blue}/*x*/" ++ newline ++ newline
              ++ js "p{color:red}")
    = parseCss (allCss html (Some css))
  ∧ finalStyles (parseCss (allCss html (Some css))) (js "p") [] !! color
    = Some (VStr (js "blue")).
Proof. vm_compute. repeat split; reflexivity. Qed.

(** ** The handlers as steps *)

Lemma handle_step rules b e b' :
  Invariant b → handle rules b e = Ok b' → Step rules b b'.
Proof.
  intros Hinv He. destruct e as [name attribs | txt | name]; simpl in He.
  - unfold onopentag in He.
    case_bool_decide; [injection He as <-; constructor |].
    destruct (createNode rules name attribs) as [node |] eqn:Hnode;
      [| injection He as <-; constructor].
    case_bool_decide as Hlen.
    + destruct (top_ok b Hinv Hlen) as (p & parent & Htop & Hl & Hp & _).
      rewrite Htop in He.
      pose proof (step_child rules b name attribs node p parent Hl Hp Hnode)
        as Hstep.
      destruct (isVoidElement name); simpl in He; injection He as <-;
        exact Hstep.
    + assert (Hnil : stack b = []) by (destruct (stack b); simpl in *;
                                         [reflexivity | lia]).
      pose proof (step_root rules b name attribs node Hnil Hnode) as Hstep.
      destruct (isVoidElement name); simpl in He; injection He as <-;
        exact Hstep.
  - unfold ontext in He.
    case_bool_decide as Hlen; [| injection He as <-; constructor].
    destruct (top_ok b Hinv Hlen) as (p & parent & Htop & Hl & Hp & _).
    rewrite Htop in He.
    case_bool_decide as Htxt; [| injection He as <-; constructor].
    injection He as <-.
    apply (step_text rules b txt p parent Hl Hp).
    intros Hnil. rewrite Hnil in Htxt. simpl in Htxt. lia.
  - unfold onclosetag in He.
    destruct (negb (isVoidElement name) && negb (name === js "style"));
      injection He as <-; constructor.
Qed.

Ltac void_test :=
  match goal with
  | Heq : ?name = js _ |- _ => subst name; vm_compute; reflexivity
  | Hin : ?name ∈ _ |- _ =>
      repeat (apply elem_of_cons in Hin as [-> | Hin]);
      [vm_compute; reflexivity .. | apply elem_of_nil in Hin; contradiction]
  end.

Ltac tag_cases H :=
  repeat match type of H with
         | context [bool_decide ?P] =>
             destruct (bool_decide_reflect P); simpl in H
         end.

(** What [createNode] returns: no text; no children array for a void tag,
    an empty one for the others. *)
Lemma createNode_shape rules name attribs node :
  createNode rules name attribs = Some node →
  text node = None ∧ type node ≠ NText
  ∧ ((isVoidElement name = true ∧ children node = None)
     ∨ (isVoidElement name = false ∧ children node = Some [])).
Proof.
  unfold createNode. intros H. tag_cases H; try discriminate;
    injection H as <-; simpl; (split; [reflexivity |]);
    (split; [discriminate |]);
    first [ left; split; [void_test | reflexivity]
          | right; split; [void_test | reflexivity] ].
Qed.

Lemma allChildren_snoc store n :
  allChildren (store ++ [n]) = allChildren store ++ default [] (children n).
Proof.
  unfold allChildren. rewrite map_app, concat_app. simpl.
  rewrite app_nil_r. reflexivity.
Qed.

Lemma allChildren_push store : ∀ p parent c,
  store !! p = Some parent →
  allChildren (<[p := pushChild c parent]> store) ≡ₚ c :: allChildren store.
Proof.
  induction store as [| n store IH]; intros p parent c Hp; [discriminate |].
  destruct p as [| p]; simpl in *.
  - injection Hp as ->. unfold allChildren. simpl.
    rewrite <- app_assoc. simpl. symmetry. apply Permutation_middle.
  - unfold allChildren in *. simpl. rewrite (IH p parent c Hp).
    symmetry. apply Permutation_middle.
Qed.

Lemma head_removelast {A} (l : list A) r :
  head (removelast l) = Some r → head l = Some r.
Proof. destruct l as [| x [| y l]]; simpl; congruence. Qed.

Lemma chained_removelast store path :
  chained store path → chained store (removelast path).
Proof.
  induction path as [| p [| c [| d rest]]]; simpl; try tauto.
  intros [Hpc Hrest]. split; [exact Hpc |]. apply IHpath. exact Hrest.
Qed.

Lemma chained_snoc store path p c :
  chained store path → last path = Some p →
  (∃ n cs, store !! p = Some n ∧ children n = Some cs ∧ c ∈ cs) →
  chained store (path ++ [c]).
Proof.
  intros Hpath Hlast Hpc.
  induction path as [| q [| d rest] IH]; [discriminate | |].
  - simpl in Hlast. injection Hlast as ->. simpl. auto.
  - destruct Hpath as [Hqd Hrest]. split; [exact Hqd |].
    apply IH; [exact Hrest |]. rewrite last_cons_cons in Hlast. exact Hlast.
Qed.

Lemma chained_mono store store' path :
  (∀ p n cs, store !! p = Some n → children n = Some cs →
             ∃ n' cs', store' !! p = Some n' ∧ children n' = Some cs'
                       ∧ cs ⊆ cs') →
  chained store path → chained store' path.
Proof.
  intros Hmono.
  induction path as [| p [| c rest] IH]; simpl; try tauto.
  intros [(n & cs & Hn & Hcs & Hin) Hrest]. split; [| apply IH, Hrest].
  destruct (Hmono p n cs Hn Hcs) as (n' & cs' & Hn' & Hcs' & Hsub).
  exists n', cs'. auto.
Qed.

Lemma structured_bounds b :
  Structured b →
  Forall (λ r, r < length (heap b))%nat (rootNodes b)
  ∧ Forall (λ r, r < length (heap b))%nat (stack b).
Proof.
  intros (_ & Hperm & Hstk & _). split.
  - apply Forall_forall. intros r Hr.
    assert (Hin : r ∈ rootNodes b ++ allChildren (heap b))
      by (apply elem_of_app; left; exact Hr).
    rewrite Hperm in Hin. apply elem_of_seq in Hin. lia.
  - eapply Forall_impl; [exact Hstk |].
    intros r (n & Hn & _). eapply lookup_lt_Some, Hn.
Qed.

(** A new node that goes under the stack top. *)
Lemma attach_structured b p parent node (pushed : bool) :
  Structured b → last (stack b) = Some p → heap b !! p = Some parent →
  default [] (children node) = [] →
  (pushed = true → children node = Some [] ∧ type node ≠ NText) →
  Structured
    {| heap := <[p := pushChild (length (heap b)) parent]> (heap b ++ [node]);
       rootNodes := rootNodes b;
       stack := if pushed then stack b ++ [length (heap b)] else stack b |}.
Proof.
  intros Hs Hlast Hp Hleaf Hpushed.
  destruct (structured_bounds b Hs) as [_ Hsb].
  destruct Hs as (Hfwd & Hperm & Hstk & Hhead & Hchain).
  pose proof (lookup_lt_Some _ _ _ Hp) as Hlt.
  assert (Hpin : p ∈ stack b).
  { apply last_Some in Hlast as [l ->]. apply elem_of_app. right.
    apply list_elem_of_singleton. reflexivity. }
  assert (Hparent : is_Some (children parent) ∧ type parent ≠ NText).
  { rewrite Forall_forall in Hstk.
    destruct (Hstk p Hpin) as (n & Hn & ? & ?). split; congruence. }
  destruct Hparent as [[cs0 Hcs0] Hpty].
  set (len := length (heap b)) in *.
  set (store' := <[p := pushChild len parent]> (heap b ++ [node])).
  assert (Hlen' : length store' = S len).
  { unfold store'. rewrite length_insert, length_app. simpl. lia. }
  assert (Hat_p : store' !! p = Some (pushChild len parent)).
  { unfold store'. apply list_lookup_insert_eq. rewrite length_app. lia. }
  assert (Hat_new : store' !! len = Some node).
  { unfold store'. rewrite list_lookup_insert_ne by lia.
    apply list_lookup_middle. reflexivity. }
  assert (Hold : ∀ r, r ≠ p → (r < len)%nat → store' !! r = heap b !! r).
  { intros r Hne Hr. unfold store'.
    rewrite list_lookup_insert_ne, lookup_app_l by (auto || lia).
    reflexivity. }
  assert (Hgrow : ∀ q n cs, heap b !! q = Some n → children n = Some cs →
             ∃ n' cs', store' !! q = Some n' ∧ children n' = Some cs'
                       ∧ cs ⊆ cs').
  { intros q n cs Hq Hcs. destruct (decide (q = p)) as [-> | Hne].
    - exists (pushChild len parent), (cs ++ [len]).
      split; [exact Hat_p |]. split.
      + simpl. assert (n = parent) by congruence. subst n.
        rewrite Hcs. reflexivity.
      + intros x Hx. apply elem_of_app. left. exact Hx.
    - exists n, cs. rewrite Hold by (auto || eapply lookup_lt_Some; eauto).
      auto. }
  unfold Structured. simpl. fold store'. rewrite Hlen'.
  split; [| split; [| split; [| split]]].
  - intros r n cs Hr Hcs.
    destruct (decide (r = p)) as [-> | Hne].
    + rewrite Hat_p in Hr. injection Hr as <-. simpl in Hcs.
      rewrite Hcs0 in Hcs. simpl in Hcs. injection Hcs as <-.
      apply Forall_app. split.
      * eapply Forall_impl; [exact (Hfwd p parent cs0 Hp Hcs0) |].
        simpl. intros; lia.
      * apply Forall_singleton. lia.
    + destruct (decide (r = len)) as [-> | Hne'].
      * rewrite Hat_new in Hr. injection Hr as <-.
        rewrite Hcs in Hleaf. simpl in Hleaf. subst cs. constructor.
      * assert (Hr' : (r < len)%nat).
        { apply lookup_lt_Some in Hr. rewrite Hlen' in Hr. lia. }
        rewrite Hold in Hr by assumption.
        eapply Forall_impl; [exact (Hfwd r n cs Hr Hcs) |].
        simpl. intros; lia.
  - unfold store'. rewrite allChildren_push
      by (rewrite lookup_app_l by exact Hlt; exact Hp).
    rewrite allChildren_snoc, Hleaf, app_nil_r.
    rewrite seq_S. simpl. rewrite <- Hperm.
    rewrite <- Permutation_middle. apply Permutation_cons_append.
  - assert (Hkeep : Forall (λ r, ∃ n, store' !! r = Some n
                                      ∧ is_Some (children n)
                                      ∧ type n ≠ NText) (stack b)).
    { rewrite Forall_forall in Hstk, Hsb. apply Forall_forall.
      intros r Hr. destruct (Hstk r Hr) as (n & Hn & Hc & Ht).
      destruct (decide (r = p)) as [-> | Hne].
      - exists (pushChild len parent). split; [exact Hat_p |].
        simpl. split; [eauto | exact Hpty].
      - exists n. rewrite Hold by (auto || exact (Hsb r Hr)). auto. }
    destruct pushed; [| exact Hkeep].
    apply Forall_app. split; [exact Hkeep |]. apply Forall_singleton.
    destruct (Hpushed eq_refl) as [Hc Ht].
    exists node. rewrite Hc. split; [exact Hat_new |]. split; [eauto | exact Ht].
  - intros r Hr. apply Hhead. destruct pushed; [| exact Hr].
    rewrite head_app in Hr. destruct (head (stack b)) eqn:Hh; [exact Hr |].
    destruct (stack b); [discriminate | discriminate].
  - pose proof (chained_mono (heap b) store' (stack b) Hgrow Hchain) as Hc.
    destruct pushed; [| exact Hc].
    apply (chained_snoc store' (stack b) p len Hc Hlast).
    exists (pushChild len parent), (cs0 ++ [len]).
    split; [exact Hat_p |]. split.
    + simpl. rewrite Hcs0. reflexivity.
    + apply elem_of_app. right. apply list_elem_of_singleton. reflexivity.
Qed.

(** A new node that becomes a root, the stack being empty. *)
Lemma root_structured b node (pushed : bool) :
  Structured b → stack b = [] →
  default [] (children node) = [] →
  (pushed = true → children node = Some [] ∧ type node ≠ NText) →
  Structured
    {| heap := heap b ++ [node];
       rootNodes := rootNodes b ++ [length (heap b)];
       stack := if pushed then stack b ++ [length (heap b)] else stack b |}.
Proof.
  intros (Hfwd & Hperm & Hstk & Hhead & Hchain) Hnil Hleaf Hpushed.
  rewrite Hnil in *. unfold Structured. simpl.
  rewrite length_app. simpl. replace (length (heap b) + 1)%nat
    with (S (length (heap b))) by lia.
  split; [| split; [| split; [| split]]].
  - intros r n cs Hr Hcs.
    destruct (decide (r = length (heap b))) as [-> | Hne].
    + rewrite list_lookup_middle in Hr by reflexivity. injection Hr as <-.
      rewrite Hcs in Hleaf. simpl in Hleaf. subst cs. constructor.
    + assert (Hr' : (r < length (heap b))%nat).
      { apply lookup_lt_Some in Hr. rewrite length_app in Hr. simpl in Hr.
        lia. }
      rewrite lookup_app_l in Hr by exact Hr'.
      eapply Forall_impl; [exact (Hfwd r n cs Hr Hcs) |]. simpl. intros; lia.
  - rewrite allChildren_snoc, Hleaf, app_nil_r, seq_S. simpl.
    rewrite <- Hperm, <- !app_assoc.
    apply Permutation_app_head. apply Permutation_app_comm.
  - destruct pushed; [| constructor]. apply Forall_singleton.
    destruct (Hpushed eq_refl) as [Hc Ht]. exists node. rewrite Hc.
    split; [apply list_lookup_middle; reflexivity |].
    split; [eauto | exact Ht].
  - intros r Hr. destruct pushed; [| discriminate].
    simpl in Hr. injection Hr as <-. apply elem_of_app. right.
    apply list_elem_of_singleton. reflexivity.
  - destruct pushed; exact I.
Qed.

Lemma Structured_empty : Structured emptyBuilder.
Proof.
  unfold Structured. simpl. split; [intros r n cs Hr; discriminate |].
  split; [reflexivity |]. split; [constructor |].
  split; [intros r Hr; discriminate | exact I].
Qed.

Lemma step_structured rules b b' :
  Structured b → Step rules b b' → Structured b'.
Proof.
  intros Hs Hstep.
  destruct Hstep as [| | name attribs node Hnil Hnode
                     | name attribs node p parent Hlast Hp Hnode
                     | txt p parent Hlast Hp Htxt].
  - exact Hs.
  - destruct Hs as (Hfwd & Hperm & Hstk & Hhead & Hchain).
    unfold Structured. simpl. split; [exact Hfwd |]. split; [exact Hperm |].
    split; [apply Forall_removelast, Hstk |].
    split; [intros r Hr; apply Hhead, head_removelast, Hr |].
    apply chained_removelast, Hchain.
  - destruct (createNode_shape _ _ _ _ Hnode) as (_ & Hty & [[Hv Hc] | [Hv Hc]]);
      rewrite Hv.
    + apply (root_structured b node false Hs Hnil);
        [rewrite Hc; reflexivity | discriminate].
    + apply (root_structured b node true Hs Hnil);
        [rewrite Hc; reflexivity | auto].
  - destruct (createNode_shape _ _ _ _ Hnode) as (_ & Hty & [[Hv Hc] | [Hv Hc]]);
      rewrite Hv.
    + apply (attach_structured b p parent node false Hs Hlast Hp);
        [rewrite Hc; reflexivity | discriminate].
    + apply (attach_structured b p parent node true Hs Hlast Hp);
        [rewrite Hc; reflexivity | auto].
  - apply (attach_structured b p parent (textNode parent txt) false
             Hs Hlast Hp); [reflexivity | discriminate].
Qed.

(** Every run of the handlers is a sequence of steps. *)
Lemma feed_steps rules (P : Builder → Prop) :
  (∀ b b', Invariant b → P b → Step rules b b' → P b') →
  ∀ events b b', Invariant b → P b → feed rules events b = Ok b' → P b'.
Proof.
  intros Hstep. induction events as [| e events IH]; intros b b' Hinv HP;
    simpl.
  - intros [= <-]. exact HP.
  - destruct (handle_ok rules b e Hinv) as (b1 & He & Hinv1). rewrite He.
    apply (IH b1 b' Hinv1).
    apply (Hstep b b1 Hinv HP). exact (handle_step rules b e b1 Hinv He).
Qed.

Lemma feed_structured rules events b :
  feed rules events emptyBuilder = Ok b → Structured b.
Proof.
  apply (feed_steps rules Structured); [| exact Invariant_empty
                                        | exact Structured_empty].
  intros b0 b1 _. apply step_structured.
Qed.

(** ** Well-typed style maps *)

Lemma Typed_empty : Typed ∅.
Proof. intros key v H. rewrite lookup_empty in H. discriminate. Qed.

Lemma Typed_insert key v st :
  kindOk key v = true → Typed st → Typed (<[key := v]> st).
Proof.
  intros Hv Hst k w. rewrite lookup_insert.
  case_decide as Hk; [intros [= <-]; subst; exact Hv | apply Hst].
Qed.

Lemma Typed_if_insert (c : bool) key v st :
  kindOk key v = true → Typed st →
  Typed (if c then <[key := v]> st else st).
Proof. intros Hv Hst. destruct c; [apply Typed_insert |]; assumption. Qed.

Lemma Typed_spread a b : Typed a → Typed b → Typed (spread a b).
Proof.
  intros Ha Hb key v. unfold spread. rewrite lookup_union.
  destruct (b !! key) as [w |] eqn:Hw, (a !! key) as [u |] eqn:Hu; simpl;
    intros [= <-]; eauto.
Qed.

Lemma assign_typed st key value : Typed st → Typed (assign st key value).
Proof.
  intros Hst. unfold assign. cbv zeta.
  apply Typed_if_insert; [reflexivity |].
  apply Typed_if_insert; [reflexivity |].
  apply Typed_if_insert; [reflexivity |].
  apply Typed_if_insert; [reflexivity |].
  match goal with
  | |- Typed (if ?c then <[?k1 := ?v1]> (<[?k2 := ?v2]> ?s) else ?s) =>
      destruct c; [apply Typed_insert; [reflexivity |] |]
  end.
  1: apply Typed_insert; [reflexivity |].
  all: apply Typed_if_insert; [reflexivity |];
    apply Typed_if_insert; [reflexivity |];
    apply Typed_if_insert; [destruct (value === js "bold"); reflexivity |];
    apply Typed_if_insert; [reflexivity |];
    apply Typed_if_insert; [reflexivity |];
    apply Typed_if_insert; [reflexivity |]; exact Hst.
Qed.

Lemma parseStyles_typed styleStr : Typed (parseStyles styleStr).
Proof.
  unfold parseStyles. destruct styleStr as [[| c s] |]; try apply Typed_empty.
  generalize (split 59 (c :: s)). intros pieces.
  assert (H : ∀ st, Typed st → Typed (fold_left styleStep pieces st)).
  { induction pieces as [| piece pieces IH]; intros st Hst; [exact Hst |].
    simpl. apply IH. unfold styleStep.
    destruct (keyValue piece) as [[key value] |]; [| exact Hst].
    apply assign_typed, Hst. }
  apply H, Typed_empty.
Qed.

Lemma applyCssRules_typed rules tagName classNames id :
  Typed (applyCssRules rules tagName classNames id).
Proof.
  unfold applyCssRules.
  assert (H : ∀ st, Typed st →
                    Typed (fold_left (ruleStep tagName classNames id)
                                     rules st)).
  { induction rules as [| rule rules IH]; intros st Hst; [exact Hst |].
    simpl. apply IH. unfold ruleStep.
    destruct (matchesSelector _ _ _ _); [| exact Hst].
    apply Typed_spread; [exact Hst | apply parseStyles_typed]. }
  apply H, Typed_empty.
Qed.

Lemma Baseline_spread a b : Baseline a → Typed b → Baseline (spread a b).
Proof.
  intros [Ha Hkeys] Hb. split; [apply Typed_spread; assumption |].
  intros key Hkey. unfold spread. rewrite lookup_union.
  destruct (Hkeys key Hkey) as [u ->]. destruct (b !! key); simpl; eauto.
Qed.

Lemma Baseline_insert key v st :
  kindOk key v = true → Baseline st → Baseline (<[key := v]> st).
Proof.
  intros Hv [Hst Hkeys]. split; [apply Typed_insert; assumption |].
  intros k Hk. rewrite lookup_insert. case_decide; [eauto | apply Hkeys, Hk].
Qed.

Lemma Baseline_concrete (st : Styles) :
  (∀ key, match st !! key with
          | Some v => kindOk key v = true
          | None => key ∉ baselineKeys
          end) →
  Baseline st.
Proof.
  intros H. split.
  - intros key v Hv. specialize (H key). rewrite Hv in H. exact H.
  - intros key Hkey. specialize (H key).
    destruct (st !! key); [eauto | contradiction].
Qed.

Lemma getUserAgentStyles_baseline tagName :
  Baseline (getUserAgentStyles tagName).
Proof.
  unfold getUserAgentStyles.
  repeat case_bool_decide; apply Baseline_concrete; intros key;
    destruct key; vm_compute; try reflexivity;
    intros Hin; repeat (apply elem_of_cons in Hin as [Hin | Hin];
                        [discriminate |]);
    apply elem_of_nil in Hin; exact Hin.
Qed.

Lemma finalStyles_baseline rules tagName attribs :
  Baseline (finalStyles rules tagName attribs).
Proof.
  unfold finalStyles. apply Baseline_spread; [| apply parseStyles_typed].
  apply Baseline_spread; [apply getUserAgentStyles_baseline |].
  apply applyCssRules_typed.
Qed.

Lemma fromAttr_baseline name key f attribs st :
  (∀ v, kindOk key (f v) = true) → Baseline st →
  Baseline (fromAttr name key f attribs st).
Proof.
  intros Hf Hst. unfold fromAttr.
  destruct (truthy (attr name attribs)); [| exact Hst].
  apply Baseline_insert; [apply Hf | exact Hst].
Qed.

Lemma createNode_baseline rules name attribs node :
  createNode rules name attribs = Some node → Baseline (styles node).
Proof.
  pose proof (finalStyles_baseline rules name attribs) as Hfinal.
  unfold createNode. intros H. tag_cases H; try discriminate;
    injection H as <-; simpl;
    repeat first [ exact Hfinal
                 | apply fromAttr_baseline; [intros v; reflexivity |]
                 | apply Baseline_insert; [reflexivity |] ].
Qed.

(** ** The nodes of the store *)

Lemma createNode_nodeOk rules name attribs node :
  createNode rules name attribs = Some node → nodeOk node.
Proof.
  intros H. split; [eapply createNode_baseline, H |].
  destruct (createNode_shape _ _ _ _ H) as (Htext & Hty & _).
  destruct (type node); [contradiction | exact Htext ..].
Qed.

Lemma attach_nodesOk b p parent node roots' stack' :
  Structured b → NodesOk b →
  last (stack b) = Some p → heap b !! p = Some parent →
  nodeOk node → default [] (children node) = [] →
  (type node = NText → styles node = styles parent) →
  NodesOk
    {| heap := <[p := pushChild (length (heap b)) parent]> (heap b ++ [node]);
       rootNodes := roots'; stack := stack' |}.
Proof.
  intros Hs [Hnodes Htexts] Hlast Hp Hnode Hleaf Hsnap.
  destruct Hs as (Hfwd & _ & Hstk & _).
  pose proof (lookup_lt_Some _ _ _ Hp) as Hlt.
  assert (Hpty : type parent ≠ NText ∧ is_Some (children parent)).
  { assert (Hpin : p ∈ stack b).
    { apply last_Some in Hlast as [l ->]. apply elem_of_app. right.
      apply list_elem_of_singleton. reflexivity. }
    rewrite Forall_forall in Hstk.
    destruct (Hstk p Hpin) as (n & Hn & ? & ?). split; congruence. }
  destruct Hpty as [Hpty [cs0 Hcs0]].
  set (len := length (heap b)) in *.
  set (store' := <[p := pushChild len parent]> (heap b ++ [node])).
  assert (Hat_p : store' !! p = Some (pushChild len parent)).
  { unfold store'. apply list_lookup_insert_eq. rewrite length_app. lia. }
  assert (Hat_new : store' !! len = Some node).
  { unfold store'. rewrite list_lookup_insert_ne by lia.
    apply list_lookup_middle. reflexivity. }
  assert (Hold : ∀ r, r ≠ p → r ≠ len → store' !! r = heap b !! r).
  { intros r Hne Hne'. unfold store'. rewrite list_lookup_insert_ne by auto.
    destruct (decide (r < len)%nat) as [Hr | Hr].
    - apply lookup_app_l. exact Hr.
    - rewrite !lookup_ge_None_2; [reflexivity | fold len; lia |].
      rewrite length_app. simpl. fold len. lia. }
  split; simpl; fold store'.
  - intros r n Hr. destruct (decide (r = p)) as [-> | Hne].
    + rewrite Hat_p in Hr. injection Hr as <-.
      destruct (Hnodes p parent Hp) as [Hb Hm]. split; [exact Hb |].
      simpl. destruct (type parent); [contradiction | exact Hm ..].
    + destruct (decide (r = len)) as [-> | Hne'].
      * rewrite Hat_new in Hr. injection Hr as <-. exact Hnode.
      * rewrite Hold in Hr by assumption. apply (Hnodes r n Hr).
  - intros q par cs c n Hq Hcs Hc Hn Hty.
    destruct (decide (q = p)) as [-> | Hqp].
    + rewrite Hat_p in Hq. injection Hq as <-. simpl in Hcs.
      rewrite Hcs0 in Hcs. simpl in Hcs. injection Hcs as <-. simpl.
      apply elem_of_app in Hc as [Hc | Hc].
      * pose proof (Hfwd p parent cs0 Hp Hcs0) as Hb.
        rewrite Forall_forall in Hb. specialize (Hb c Hc). fold len in Hb.
        rewrite Hold in Hn by lia.
        apply (Htexts p parent cs0 c n Hp Hcs0 Hc Hn Hty).
      * apply list_elem_of_singleton in Hc. subst c.
        rewrite Hat_new in Hn. injection Hn as <-. apply Hsnap, Hty.
    + destruct (decide (q = len)) as [-> | Hql].
      * rewrite Hat_new in Hq. injection Hq as <-.
        rewrite Hcs in Hleaf. simpl in Hleaf. subst cs.
        apply elem_of_nil in Hc. contradiction.
      * rewrite Hold in Hq by assumption.
        pose proof (Hfwd q par cs Hq Hcs) as Hb.
        rewrite Forall_forall in Hb. specialize (Hb c Hc). fold len in Hb.
        destruct (decide (c = p)) as [-> | Hcp].
        -- rewrite Hat_p in Hn. injection Hn as <-. simpl in Hty.
           contradiction.
        -- rewrite Hold in Hn by lia.
           apply (Htexts q par cs c n Hq Hcs Hc Hn Hty).
Qed.

Lemma root_nodesOk b node roots' stack' :
  Structured b → NodesOk b →
  nodeOk node → default [] (children node) = [] →
  NodesOk {| heap := heap b ++ [node]; rootNodes := roots';
             stack := stack' |}.
Proof.
  intros (Hfwd & _) [Hnodes Htexts] Hnode Hleaf.
  assert (Hcase : ∀ r n, (heap b ++ [node]) !! r = Some n →
            (heap b !! r = Some n ∧ (r < length (heap b))%nat)
            ∨ (r = length (heap b) ∧ n = node)).
  { intros r n Hr. destruct (decide (r < length (heap b))%nat) as [Hlt | Hge].
    - left. rewrite lookup_app_l in Hr by exact Hlt. auto.
    - right. pose proof (lookup_lt_Some _ _ _ Hr) as Hb.
      rewrite length_app in Hb. simpl in Hb.
      assert (r = length (heap b)) by lia. subst r.
      rewrite list_lookup_middle in Hr by reflexivity. split; congruence. }
  split; simpl.
  - intros r n Hr. destruct (Hcase r n Hr) as [[Hr' _] | [_ ->]];
      [apply (Hnodes r n Hr') | exact Hnode].
  - intros q par cs c n Hq Hcs Hc Hn Hty.
    destruct (Hcase q par Hq) as [[Hq' _] | [_ ->]].
    + pose proof (Hfwd q par cs Hq' Hcs) as Hb.
      rewrite Forall_forall in Hb. specialize (Hb c Hc).
      destruct (Hcase c n Hn) as [[Hn' _] | [-> _]]; [| lia].
      apply (Htexts q par cs c n Hq' Hcs Hc Hn' Hty).
    + rewrite Hcs in Hleaf. simpl in Hleaf. subst cs.
      apply elem_of_nil in Hc. contradiction.
Qed.

Lemma NodesOk_empty : NodesOk emptyBuilder.
Proof. split; simpl; intros; discriminate. Qed.

Lemma step_nodesOk rules b b' :
  Structured b → NodesOk b → Step rules b b' → NodesOk b'.
Proof.
  intros Hs Hn Hstep.
  destruct Hstep as [| | name attribs node Hnil Hnode
                     | name attribs node p parent Hlast Hp Hnode
                     | txt p parent Hlast Hp Htxt].
  - exact Hn.
  - exact Hn.
  - apply (root_nodesOk b node _ _ Hs Hn (createNode_nodeOk _ _ _ _ Hnode)).
    destruct (createNode_shape _ _ _ _ Hnode) as (_ & _ & [[_ ->] | [_ ->]]);
      reflexivity.
  - apply (attach_nodesOk b p parent node _ _ Hs Hn Hlast Hp
             (createNode_nodeOk _ _ _ _ Hnode)).
    + destruct (createNode_shape _ _ _ _ Hnode)
        as (_ & _ & [[_ ->] | [_ ->]]); reflexivity.
    + destruct (createNode_shape _ _ _ _ Hnode) as (_ & Hty & _).
      intros H. contradiction.
  - apply (attach_nodesOk b p parent (textNode parent txt) _ _ Hs Hn Hlast Hp);
      [| reflexivity | reflexivity].
    split; simpl.
    + destruct Hn as [Hnodes _]. apply (Hnodes p parent Hp).
    + split; [exists txt; auto | reflexivity].
Qed.

Lemma feed_wellformed rules events b :
  feed rules events emptyBuilder = Ok b → Structured b ∧ NodesOk b.
Proof.
  apply (feed_steps rules (λ b, Structured b ∧ NodesOk b));
    [| exact Invariant_empty
     | split; [exact Structured_empty | exact NodesOk_empty]].
  intros b0 b1 _ [Hs Hn] Hstep. split.
  - eapply step_structured; eassumption.
  - eapply step_nodesOk; eassumption.
Qed.

(** Children come later in the store than their parent, so the depth of a
    tree is bounded by the size of the store. *)
Lemma reify_total store :
  (∀ r n cs, store !! r = Some n → children n = Some cs →
             Forall (λ c, r < c < length store)%nat cs) →
  ∀ k r d, (length store ≤ r + k)%nat → (r < length store)%nat →
           (k ≤ d)%nat → is_Some (reify d store r).
Proof.
  intros Hfwd. induction k as [| k IH]; intros r d Hk Hr Hd; [lia |].
  destruct d as [| d]; [lia |]. simpl.
  destruct (lookup_lt_is_Some_2 store r Hr) as [n Hn]. rewrite Hn.
  destruct (children n) as [cs |] eqn:Hcs; [| eauto].
  assert (Hkids : is_Some (mapM (reify d store) cs)).
  { apply mapM_is_Some. eapply Forall_impl; [exact (Hfwd r n cs Hn Hcs) |].
    simpl. intros c Hc. apply IH; lia. }
  destruct Hkids as [ts ->]. eauto.
Qed.

(** X1.  Every node that a run of the handlers creates is a root or the
    child of one node, and is so once; the children of a node were created
    after it.  The result is a forest: no node has two parents, none is its
    own ancestor. *)
Theorem store_is_a_forest (rules : list CssRule) (events : list Event)
    (b : Builder) :
  feed rules events emptyBuilder = Ok b →
  (∀ r n cs, heap b !! r = Some n → children n = Some cs →
             Forall (λ c, r < c < length (heap b))%nat cs)
  ∧ rootNodes b ++ allChildren (heap b) ≡ₚ seq 0 (length (heap b))
  ∧ NoDup (rootNodes b ++ allChildren (heap b)).
Proof.
  intros Hfeed.
  destruct (feed_wellformed _ _ _ Hfeed) as [(Hfwd & Hperm & _) _].
  split; [exact Hfwd |]. split; [exact Hperm |].
  rewrite Hperm. apply NoDup_seq.
Qed.

Lemma store_is_a_forest_witness :
  let st := finalStyles [] (js "div") [] in
  let b :=
    {| heap := [ pushChild 2 (pushChild 1 (container NBlock st));
                 textNode (container NBlock st) (js "a");
                 leaf NBreak (finalStyles [] (js "br") []) ];
       rootNodes := [0%nat]; stack := [0%nat] |} in
  feed [] [OpenTag (js "div") []; TextEvent (js "a"); OpenTag (js "br") []]
       emptyBuilder = Ok b
  ∧ (∀ r n cs, heap b !! r = Some n → children n = Some cs →
               Forall (λ c, r < c < length (heap b))%nat cs)
  ∧ rootNodes b ++ allChildren (heap b) ≡ₚ seq 0 (length (heap b))
  ∧ NoDup (rootNodes b ++ allChildren (heap b)).
Proof.
  intros st b.
  assert (Hfeed : feed [] [OpenTag (js "div") []; TextEvent (js "a");
                           OpenTag (js "br") []] emptyBuilder = Ok b)
    by (vm_compute; reflexivity).
  split; [exact Hfeed |].
  exact (store_is_a_forest [] _ b Hfeed).
Defined.

(** X2.  The open-element stack is a path of the tree: its bottom is a root,
    every other element is a child of the one below it, and all of them are
    containers (they have a children array and are not text nodes). *)
Theorem stack_is_a_path (rules : list CssRule) (events : list Event)
    (b : Builder) :
  feed rules events emptyBuilder = Ok b →
  (∀ r, head (stack b) = Some r → r ∈ rootNodes b)
  ∧ chained (heap b) (stack b)
  ∧ Forall (λ r, ∃ n, heap b !! r = Some n ∧ is_Some (children n)
                      ∧ type n ≠ NText)
           (stack b).
Proof.
  intros Hfeed.
  destruct (feed_wellformed _ _ _ Hfeed) as [(_ & _ & Hstk & Hhead & Hch) _].
  auto.
Qed.

Lemma stack_is_a_path_witness :
  let st := finalStyles [] (js "div") [] in
  let b :=
    {| heap := [ pushChild 1 (container NBlock st);
                 container NBlock (finalStyles [] (js "p") []) ];
       rootNodes := [0%nat]; stack := [0%nat; 1%nat] |} in
  feed [] [OpenTag (js "div") []; OpenTag (js "p") []] emptyBuilder = Ok b
  ∧ (∀ r, head (stack b) = Some r → r ∈ rootNodes b)
  ∧ chained (heap b) (stack b)
  ∧ Forall (λ r, ∃ n, heap b !! r = Some n ∧ is_Some (children n)
                      ∧ type n ≠ NText)
           (stack b).
Proof.
  intros st b.
  assert (Hfeed : feed [] [OpenTag (js "div") []; OpenTag (js "p") []]
                    emptyBuilder = Ok b) by (vm_compute; reflexivity).
  split; [exact Hfeed |].
  exact (stack_is_a_path [] _ b Hfeed).
Defined.

(** X3.  Every node of the result has well-typed styles that define the
    seven user-agent keys; in particular its font family is [body] (no rule
    or inline style can change it) and its font weight is [bold] or
    [normal]. *)
Theorem every_node_has_baseline_styles (rules : list CssRule)
    (events : list Event) (b : Builder) (r : nat) (n : RenderNode) :
  feed rules events emptyBuilder = Ok b → heap b !! r = Some n →
  styles n !! fontFamily = Some (VStr (js "body"))
  ∧ (styles n !! fontWeight = Some bold
     ∨ styles n !! fontWeight = Some (VStr (js "normal")))
  ∧ Baseline (styles n).
Proof.
  intros Hfeed Hn.
  destruct (feed_wellformed _ _ _ Hfeed) as [_ [Hnodes _]].
  destruct (Hnodes r n Hn) as [[Hty Hkeys] _].
  split; [| split; [| split; assumption]].
  - destruct (Hkeys fontFamily) as [v Hv]; [repeat constructor |].
    pose proof (Hty _ _ Hv) as Hk. destruct v as [x | s]; [discriminate |].
    simpl in Hk. apply bool_decide_eq_true in Hk. congruence.
  - destruct (Hkeys fontWeight) as [v Hv]; [repeat constructor |].
    pose proof (Hty _ _ Hv) as Hk. destruct v as [x | s]; [discriminate |].
    simpl in Hk. apply orb_true_iff in Hk as [Hk | Hk];
      apply bool_decide_eq_true in Hk; subst s; auto.
Qed.

Lemma every_node_has_baseline_styles_witness :
  let attribs := [(js "style", js "font-family: serif; font-weight: 900")] in
  let n := container NBlock (finalStyles [] (js "h1") attribs) in
  let b := {| heap := [n]; rootNodes := [0%nat]; stack := [0%nat] |} in
  feed [] [OpenTag (js "h1") attribs] emptyBuilder = Ok b
  ∧ heap b !! 0%nat = Some n
  ∧ styles n !! fontFamily = Some (VStr (js "body"))
  ∧ (styles n !! fontWeight = Some bold
     ∨ styles n !! fontWeight = Some (VStr (js "normal")))
  ∧ Baseline (styles n).
Proof.
  intros attribs n b.
  assert (Hfeed : feed [] [OpenTag (js "h1") attribs] emptyBuilder = Ok b)
    by (vm_compute; reflexivity).
  split; [exact Hfeed |]. split; [reflexivity |].
  exact (every_node_has_baseline_styles [] _ b 0 n Hfeed eq_refl).
Defined.

(** X4.  A text node has the styles of the node it is a child of: the copy
    that [ontext] takes stays equal to the original, since no handler
    changes the styles of a node once it is created. *)
Theorem text_node_has_parent_styles (rules : list CssRule)
    (events : list Event) (b : Builder) (p c : nat)
    (parent n : RenderNode) (cs : list nat) :
  feed rules events emptyBuilder = Ok b →
  heap b !! p = Some parent → children parent = Some cs → c ∈ cs →
  heap b !! c = Some n → type n = NText →
  styles n = styles parent.
Proof.
  intros Hfeed. destruct (feed_wellformed _ _ _ Hfeed) as [_ [_ Htexts]].
  apply Htexts.
Qed.

Lemma text_node_has_parent_styles_witness :
  let attribs := [(js "style", js "color: red")] in
  let span := container NBlock (finalStyles [] (js "span") attribs) in
  let n := textNode span (js "b") in
  let b := {| heap := [pushChild 1 span; n]; rootNodes := [0%nat];
              stack := [0%nat] |} in
  feed [] [OpenTag (js "span") attribs; TextEvent (js "b")] emptyBuilder
    = Ok b
  ∧ styles n = styles (pushChild 1 span).
Proof.
  intros attribs span n b.
  assert (Hfeed : feed [] [OpenTag (js "span") attribs; TextEvent (js "b")]
                    emptyBuilder = Ok b) by (vm_compute; reflexivity).
  split; [exact Hfeed |].
  apply (text_node_has_parent_styles [] _ b 0 1 (pushChild 1 span) n
           [1%nat] Hfeed); try reflexivity.
  apply list_elem_of_singleton. reflexivity.
Defined.

(** X5.  A text node carries a collapsed text that is not blank, and never
    gets a children array; a node that is not a text node carries no
    text. *)
Theorem text_nodes_hold_collapsed_text (rules : list CssRule)
    (events : list Event) (b : Builder) (r : nat) (n : RenderNode) :
  feed rules events emptyBuilder = Ok b → heap b !! r = Some n →
  match type n with
  | NText =>
      (∃ raw, text n = Some (collapse raw) ∧ trim (collapse raw) ≠ [])
      ∧ children n = None
  | _ => text n = None
  end.
Proof.
  intros Hfeed Hn. destruct (feed_wellformed _ _ _ Hfeed) as [_ [Hnodes _]].
  apply (Hnodes r n Hn).
Qed.

Lemma text_nodes_hold_collapsed_text_witness :
  let div := container NBlock (finalStyles [] (js "div") []) in
  let n := textNode div (js " a  b ") in
  let b := {| heap := [pushChild 1 div; n]; rootNodes := [0%nat];
              stack := [0%nat] |} in
  feed [] [OpenTag (js "div") []; TextEvent (js " a  b ")] emptyBuilder = Ok b
  ∧ heap b !! 1%nat = Some n
  ∧ (∃ raw, text n = Some (collapse raw) ∧ trim (collapse raw) ≠ [])
  ∧ children n = None.
Proof.
  intros div n b.
  assert (Hfeed : feed [] [OpenTag (js "div") []; TextEvent (js " a  b ")]
                    emptyBuilder = Ok b) by (vm_compute; reflexivity).
  split; [exact Hfeed |]. split; [reflexivity |].
  exact (text_nodes_hold_collapsed_text [] _ b 1 n Hfeed eq_refl).
Defined.

(** X6.  The result of a run always reads as a finite forest of trees, one
    tree for each root: following the children references from the roots
    ends, within a depth of the number of nodes. *)
Theorem result_reads_as_trees (rules : list CssRule) (events : list Event) :
  ∃ b ts, feed rules events emptyBuilder = Ok b
          ∧ built (Ok b) = Some ts
          ∧ length ts = length (rootNodes b).
Proof.
  destruct (feed_ok rules events emptyBuilder Invariant_empty)
    as (b & Hfeed & _).
  pose proof (feed_wellformed _ _ _ Hfeed) as [Hs _].
  destruct (structured_bounds b Hs) as [Hroots _].
  destruct Hs as (Hfwd & _).
  assert (Hts : is_Some (trees {| nodes := heap b; roots := rootNodes b |})).
  { unfold trees. simpl. apply mapM_is_Some.
    eapply Forall_impl; [exact Hroots |]. simpl. intros r Hr.
    apply (reify_total (heap b) Hfwd (length (heap b))); lia. }
  destruct Hts as [ts Hts]. exists b, ts. split; [exact Hfeed |].
  split; [exact Hts |].
  unfold trees in Hts. simpl in Hts. symmetry. eapply length_mapM, Hts.
Qed.

(** ** Balanced event streams *)

Lemma feed_app rules events1 : ∀ events2 b,
  feed rules (events1 ++ events2) b =
    match feed rules events1 b with
    | Ok b1 => feed rules events2 b1
    | Throw => Throw
    end.
Proof.
  induction events1 as [| e events1 IH]; intros events2 b; [reflexivity |].
  simpl. destruct (handle rules b e); [apply IH | reflexivity].
Qed.

Lemma onopentag_stack rules b name attribs :
  Invariant b →
  ∃ b', onopentag rules b name attribs = Ok b' ∧ Invariant b'
        ∧ stack b' = if pushes rules name attribs
                     then stack b ++ [length (heap b)] else stack b.
Proof.
  intros Hinv.
  destruct (onopentag_ok rules b name attribs Hinv) as (b' & Hb' & Hinv' & _).
  exists b'. split; [exact Hb' |]. split; [exact Hinv' |].
  unfold onopentag in Hb'. unfold pushes.
  case_bool_decide; simpl; [congruence |].
  destruct (createNode rules name attribs) as [node |]; simpl; [| congruence].
  case_bool_decide as Hlen.
  - destruct (top_ok b Hinv Hlen) as (p & parent & Htop & _).
    rewrite Htop in Hb'.
    destruct (isVoidElement name); simpl in *; injection Hb' as <-;
      reflexivity.
  - destruct (isVoidElement name); simpl in *; injection Hb' as <-;
      reflexivity.
Qed.

Lemma onclosetag_stack b name :
  Invariant b →
  ∃ b', onclosetag b name = Ok b' ∧ Invariant b'
        ∧ stack b' = if pops name then removelast (stack b) else stack b.
Proof.
  intros Hinv.
  destruct (onclosetag_ok b name Hinv) as (b' & Hb' & Hinv').
  exists b'. split; [exact Hb' |]. split; [exact Hinv' |].
  unfold onclosetag in Hb'. unfold pops.
  destruct (negb (isVoidElement name) && negb (name === js "style"));
    injection Hb' as <-; reflexivity.
Qed.

Lemma balanced_feed rules events :
  Balanced rules events →
  ∀ b, Invariant b →
       ∃ b', feed rules events b = Ok b' ∧ Invariant b'
             ∧ stack b' = stack b.
Proof.
  induction 1 as [| txt rest _ IH | name attribs rest Hskip _ IH
                  | name rest Hskip _ IH
                  | name attribs inner closing rest Hpush Hpop _ IHin _ IHrest];
    intros b Hinv.
  - exists b. auto.
  - simpl. destruct (ontext_ok b txt Hinv) as (b1 & Hb1 & Hinv1).
    rewrite Hb1. destruct (IH b1 Hinv1) as (b' & ? & ? & Hst).
    exists b'. split; [assumption |]. split; [assumption |].
    rewrite Hst. unfold ontext in Hb1.
    case_bool_decide as Hlen; [| congruence].
    destruct (top_ok b Hinv Hlen) as (p & parent & Htop & _).
    rewrite Htop in Hb1. case_bool_decide; injection Hb1 as <-; reflexivity.
  - simpl.
    destruct (onopentag_stack rules b name attribs Hinv)
      as (b1 & Hb1 & Hinv1 & Hst1).
    rewrite Hb1, Hskip in *. destruct (IH b1 Hinv1) as (b' & ? & ? & Hst).
    exists b'. rewrite Hst. auto.
  - simpl. destruct (onclosetag_stack b name Hinv) as (b1 & Hb1 & Hinv1 & Hst1).
    rewrite Hb1, Hskip in *. destruct (IH b1 Hinv1) as (b' & ? & ? & Hst).
    exists b'. rewrite Hst. auto.
  - cbn [feed handle].
    destruct (onopentag_stack rules b name attribs Hinv)
      as (b1 & Hb1 & Hinv1 & Hst1).
    rewrite Hb1, Hpush in *. rewrite feed_app.
    destruct (IHin b1 Hinv1) as (b2 & Hb2 & Hinv2 & Hst2). rewrite Hb2.
    cbn [feed handle].
    destruct (onclosetag_stack b2 closing Hinv2) as (b3 & Hb3 & Hinv3 & Hst3).
    rewrite Hb3, Hpop in *.
    destruct (IHrest b3 Hinv3) as (b' & ? & ? & Hst).
    exists b'. split; [assumption |]. split; [assumption |].
    rewrite Hst, Hst3, Hst2, Hst1. apply removelast_last.
Qed.

(** X7.  A balanced stream of events leaves the open-element stack as it
    found it, whatever was built before: after the close of an element the
    stack is what it was before its open.  A balanced document ends with an
    empty stack. *)
Theorem balanced_stream_restores_stack (rules : list CssRule)
    (before events : list Event) (b : Builder) :
  feed rules before emptyBuilder = Ok b → Balanced rules events →
  ∃ b', feed rules events b = Ok b' ∧ stack b' = stack b.
Proof.
  intros Hfeed Hbal.
  destruct (balanced_feed rules events Hbal b (feed_invariant _ _ _ Hfeed))
    as (b' & ? & _ & ?).
  eauto.
Qed.

Lemma balanced_stream_restores_stack_witness :
  let b :=
    {| heap := [container NBlock (finalStyles [] (js "div") [])];
       rootNodes := [0%nat]; stack := [0%nat] |} in
  let events :=
    [ OpenTag (js "p") []; TextEvent (js "t"); OpenTag (js "br") [];
      CloseTag (js "br"); CloseTag (js "p") ] in
  feed [] [OpenTag (js "div") []] emptyBuilder = Ok b
  ∧ Balanced [] events
  ∧ ∃ b', feed [] events b = Ok b' ∧ stack b' = stack b.
Proof.
  intros b events.
  assert (Hfeed : feed [] [OpenTag (js "div") []] emptyBuilder = Ok b)
    by (vm_compute; reflexivity).
  assert (Hbal : Balanced [] events).
  { apply (balanced_element [] (js "p") []
             [TextEvent (js "t"); OpenTag (js "br") []; CloseTag (js "br")]
             (js "p") []); try reflexivity.
    - apply balanced_text. apply balanced_open_skip; [reflexivity |].
      apply balanced_close_skip; [reflexivity |]. apply balanced_nil.
    - apply balanced_nil. }
  split; [exact Hfeed |]. split; [exact Hbal |].
  exact (balanced_stream_restores_stack [] _ events b Hfeed Hbal).
Defined.

(** ** Well-formed rule blocks *)

Lemma allSpace_trim s : allSpace s = true → trim s = [].
Proof.
  intros H. unfold trim, trimStart. rewrite all_dropWhile by exact H.
  reflexivity.
Qed.

Lemma isSpace_without c W :
  isSpace c = false → allSpace W = true → without c W = true.
Proof.
  intros Hc. unfold allSpace, without.
  induction W as [| x W IH]; simpl; [reflexivity |].
  intros H. apply andb_true_iff in H as [Hx HW]. rewrite IH by exact HW.
  destruct (x =? c) eqn:Hxc; [| reflexivity].
  apply N.eqb_eq in Hxc. congruence.
Qed.

Lemma split_nonempty sep s : split sep s ≠ [].
Proof.
  destruct s as [| c s]; simpl; [discriminate |].
  destruct (c =? sep); [discriminate |].
  destruct (split sep s); discriminate.
Qed.

Lemma split_prefix sep W s :
  without sep W = true →
  split sep (W ++ s) =
    match split sep s with
    | p :: ps => (W ++ p) :: ps
    | [] => [W]
    end.
Proof.
  induction W as [| c W IH]; simpl; intros HW.
  - destruct (split sep s) eqn:Hs; [| reflexivity].
    exfalso. exact (split_nonempty sep s Hs).
  - apply andb_true_iff in HW as [Hc HW]. apply negb_true_iff in Hc.
    rewrite Hc, IH by exact HW.
    destruct (split sep s); reflexivity.
Qed.

Lemma keyValue_space_prefix W decl :
  allSpace W = true → keyValue (W ++ decl) = keyValue decl.
Proof.
  intros HW. unfold keyValue.
  rewrite split_prefix by (apply isSpace_without; [reflexivity | exact HW]).
  destruct (split 58 decl) as [| p ps] eqn:Hs;
    [exfalso; exact (split_nonempty 58 decl Hs) |].
  simpl. rewrite trim_space_prefix by exact HW. reflexivity.
Qed.

Lemma keyValue_space s : allSpace s = true → keyValue s = None.
Proof.
  intros Hs. unfold keyValue.
  rewrite split_without by (apply isSpace_without; [reflexivity | exact Hs]).
  simpl. rewrite allSpace_trim by exact Hs. reflexivity.
Qed.

Lemma declarationsOf_space_prefix W body :
  allSpace W = true → declarationsOf (W ++ body) = declarationsOf body.
Proof.
  intros HW. unfold declarationsOf.
  rewrite split_prefix by (apply isSpace_without; [reflexivity | exact HW]).
  destruct (split 59 body) as [| p ps] eqn:Hs;
    [exfalso; exact (split_nonempty 59 body Hs) |].
  simpl. f_equal. unfold declarationStep.
  rewrite keyValue_space_prefix by exact HW. reflexivity.
Qed.

Lemma declarationsOf_space s : allSpace s = true → declarationsOf s = [].
Proof.
  intros Hs. unfold declarationsOf.
  rewrite split_without by (apply isSpace_without; [reflexivity | exact Hs]).
  simpl. unfold declarationStep. rewrite keyValue_space by exact Hs.
  reflexivity.
Qed.

(** The white space that the rule regex leaves out of its second capture
    does not change the declarations. *)
Lemma declarationsOf_ruleBody inner body :
  ruleBody inner = Some body → declarationsOf body = declarationsOf inner.
Proof.
  unfold ruleBody. intros H.
  pose proof (takeWhile_dropWhile isSpace inner) as Hsplit.
  pose proof (forallb_takeWhile isSpace inner) as HW.
  destruct (dropWhile isSpace inner) as [| c r] eqn:Hd.
  - assert (Hall : allSpace inner = true) by (apply dropWhile_nil_all, Hd).
    destruct (last inner) as [x |] eqn:Hlast; [| discriminate].
    injection H as <-. rewrite (declarationsOf_space inner Hall).
    apply declarationsOf_space. simpl.
    apply last_Some in Hlast as [l ->]. unfold allSpace in Hall.
    rewrite forallb_app in Hall. apply andb_true_iff in Hall as [_ Hx].
    exact Hx.
  - injection H as <-.
    transitivity (declarationsOf (takeWhile isSpace inner ++ c :: r));
      [symmetry; apply declarationsOf_space_prefix, HW
      | rewrite Hsplit; reflexivity].
Qed.

Lemma ruleHere_block sel body rest :
  sel ≠ [] → forallb notBrace sel = true →
  body ≠ [] → without 125 body = true →
  ∃ capture, ruleBody body = Some capture
             ∧ ruleHere (sel ++ 123 :: body ++ 125 :: rest)
               = Some ((sel, capture), rest).
Proof.
  intros Hsel Hsel' Hbody Hbody'.
  assert (Hcap : ∃ capture, ruleBody body = Some capture).
  { unfold ruleBody. destruct (dropWhile isSpace body); [| eauto].
    destruct (last body) eqn:Hl; [eauto |].
    apply last_None in Hl. contradiction. }
  destruct Hcap as [capture Hcap]. exists capture. split; [exact Hcap |].
  unfold ruleHere.
  destruct (span_app_all notBrace sel (123 :: body ++ 125 :: rest) Hsel')
    as [-> ->].
  simpl takeWhile. simpl dropWhile. rewrite app_nil_r.
  destruct sel as [| c sel]; [contradiction |].
  rewrite N.eqb_refl.
  destruct (span_app_all notClose body (125 :: rest) Hbody') as [-> ->].
  simpl. rewrite app_nil_r, Hcap. reflexivity.
Qed.

(** X8.  A well-formed block, [selector { declarations }] with a selector
    that is not empty and has no brace and declarations that are not empty
    and have no [}], gives one rule: the trimmed selector with the
    declarations of the block; the text after it is parsed on its own.  So a
    sheet of well-formed blocks gives one rule for each block, in order. *)
Theorem parseCss_block (sel body rest : jsstring) :
  sel ≠ [] → forallb notBrace sel = true →
  body ≠ [] → without 125 body = true →
  parseCss (sel ++ 123 :: body ++ 125 :: rest)
  = (trim sel, declarationsOf body) :: parseCss rest.
Proof.
  intros Hsel Hsel' Hbody Hbody'.
  destruct (ruleHere_block sel body rest Hsel Hsel' Hbody Hbody')
    as (capture & Hcap & Hhere).
  unfold parseCss.
  rewrite (matchAll_unfold ruleHere ruleHere_shrinks), (exec_here _ _ Hhere).
  simpl. rewrite (declarationsOf_ruleBody body capture Hcap). reflexivity.
Qed.

Lemma parseCss_block_witness :
  js ".x " ≠ [] ∧ forallb notBrace (js ".x ") = true
  ∧ js " color : red ; margin:4" ≠ []
  ∧ without 125 (js " color : red ; margin:4") = true
  ∧ parseCss (js ".x " ++ 123 :: js " color : red ; margin:4"
              ++ 125 :: js " p{a:b}")
    = (trim (js ".x "), declarationsOf (js " color : red ; margin:4"))
        :: parseCss (js " p{a:b}").
Proof.
  assert (H1 : js ".x " ≠ []) by discriminate.
  assert (H3 : js " color : red ; margin:4" ≠ []) by discriminate.
  split; [exact H1 |]. split; [reflexivity |]. split; [exact H3 |].
  split; [reflexivity |].
  exact (parseCss_block (js ".x ") (js " color : red ; margin:4")
           (js " p{a:b}") H1 eq_refl H3 eq_refl).
Defined.

(** ** Parsed declarations *)

Lemma dropWhile_idem p (s : jsstring) :
  dropWhile p (dropWhile p s) = dropWhile p s.
Proof.
  induction s as [| c s IH]; simpl; [reflexivity |].
  destruct (p c) eqn:Hc; [exact IH | simpl; rewrite Hc; reflexivity].
Qed.

Lemma dropWhile_snoc p (s : jsstring) c :
  p c = false → dropWhile p (s ++ [c]) = dropWhile p s ++ [c].
Proof.
  intros Hc. induction s as [| d s IH]; simpl; [rewrite Hc; reflexivity |].
  destruct (p d); [exact IH | reflexivity].
Qed.

Lemma trimEnd_cons c s :
  isSpace c = false → trimEnd (c :: s) = c :: trimEnd s.
Proof.
  intros Hc. unfold trimEnd. simpl.
  rewrite dropWhile_snoc by exact Hc. rewrite rev_app_distr. reflexivity.
Qed.

Lemma trimEnd_idem s : trimEnd (trimEnd s) = trimEnd s.
Proof.
  unfold trimEnd. rewrite rev_involutive, dropWhile_idem. reflexivity.
Qed.

Lemma trim_idempotent s : trim (trim s) = trim s.
Proof.
  unfold trim. remember (trimStart s) as t eqn:Ht. unfold trimStart in Ht.
  destruct t as [| c r]; [reflexivity |].
  symmetry in Ht. apply dropWhile_head in Ht.
  rewrite trimEnd_cons by exact Ht. unfold trimStart. simpl. rewrite Ht.
  rewrite trimEnd_cons by exact Ht. rewrite trimEnd_idem. reflexivity.
Qed.

Lemma without_dropWhile c p (s : jsstring) :
  without c s = true → without c (dropWhile p s) = true.
Proof.
  unfold without. induction s as [| d s IH]; simpl; [reflexivity |].
  intros H. destruct (p d); [| exact H].
  apply andb_true_iff in H as [_ H]. apply IH, H.
Qed.

Lemma without_trim c s : without c s = true → without c (trim s) = true.
Proof.
  intros H. unfold trim, trimEnd, trimStart, without.
  rewrite forallb_rev. apply without_dropWhile.
  unfold without. rewrite forallb_rev. apply without_dropWhile, H.
Qed.

Lemma split_pieces_sep sep s :
  Forall (λ piece, without sep piece = true) (split sep s).
Proof.
  induction s as [| c s IH]; simpl; [repeat constructor |].
  destruct (c =? sep) eqn:Hc; [constructor; [reflexivity | exact IH] |].
  destruct (split sep s) as [| p ps]; [repeat constructor; simpl; rewrite Hc;
                                         reflexivity |].
  inversion IH as [| ? ? Hp Hps]; subst. constructor; [| exact Hps].
  simpl. rewrite Hc. exact Hp.
Qed.

Lemma split_pieces_other sep c s :
  without c s = true →
  Forall (λ piece, without c piece = true) (split sep s).
Proof.
  induction s as [| d s IH]; simpl; [repeat constructor |].
  intros H. apply andb_true_iff in H as [Hd H]. specialize (IH H).
  destruct (d =? sep); [constructor; [reflexivity | exact IH] |].
  destruct (split sep s) as [| p ps];
    [repeat constructor; simpl; rewrite Hd; reflexivity |].
  inversion IH as [| ? ? Hp Hps]; subst. constructor; [| exact Hps].
  simpl. rewrite Hd. exact Hp.
Qed.

Lemma keyValue_clean decl key value :
  without 59 decl = true → keyValue decl = Some (key, value) →
  cleanPart key ∧ cleanPart value.
Proof.
  intros Hdecl. unfold keyValue.
  pose proof (split_pieces_sep 58 decl) as Hsep.
  pose proof (split_pieces_other 58 59 decl Hdecl) as Hsemi.
  destruct (split 58 decl) as [| p0 [| p1 ps]]; simpl;
    [discriminate | destruct (trim p0); discriminate |].
  destruct (trim p0) as [| k k'] eqn:Hk; [discriminate |].
  destruct (trim p1) as [| v v'] eqn:Hv; [discriminate |].
  intros [= <- <-].
  inversion Hsep as [| ? ? Hs0 Hsep']; inversion Hsep' as [| ? ? Hs1 _].
  inversion Hsemi as [| ? ? Hm0 Hsemi']; inversion Hsemi' as [| ? ? Hm1 _].
  subst. rewrite <- Hk, <- Hv. split.
  - split; [rewrite Hk; discriminate |].
    split; [apply trim_idempotent |]. split; apply without_trim; assumption.
  - split; [rewrite Hv; discriminate |].
    split; [apply trim_idempotent |]. split; apply without_trim; assumption.
Qed.

Lemma recordSet_clean key value record :
  cleanEntry (key, value) → Forall cleanEntry record →
  Forall cleanEntry (recordSet key value record).
Proof.
  intros Hkv. induction 1 as [| [k v] record Hk Hrec IH]; simpl.
  - case_bool_decide; [constructor | constructor; [exact Hkv | constructor]].
  - case_bool_decide as Heq; constructor; try assumption.
    subst k. destruct Hk as [Hk _], Hkv as [_ Hv]. split; assumption.
Qed.

Lemma recordSet_keys key value record :
  map fst (recordSet key value record) = map fst record
  ∨ ((key ∉ map fst record)
     ∧ map fst (recordSet key value record) = map fst record ++ [key]).
Proof.
  induction record as [| [k v] record IH]; simpl.
  - case_bool_decide; [left; reflexivity | right].
    split; [apply not_elem_of_nil | reflexivity].
  - case_bool_decide as Heq; simpl; [left; reflexivity |].
    destruct IH as [-> | [Hnotin ->]]; [left; reflexivity | right].
    split; [| reflexivity].
    apply not_elem_of_cons. split; [congruence | exact Hnotin].
Qed.

Lemma recordSet_NoDup key value record :
  NoDup (map fst record) → NoDup (map fst (recordSet key value record)).
Proof.
  intros Hnd. destruct (recordSet_keys key value record) as [-> | [Hnotin ->]];
    [exact Hnd |].
  apply NoDup_app. split; [exact Hnd |]. split; [| apply NoDup_singleton].
  intros x Hx Hx'. apply list_elem_of_singleton in Hx'. subst x.
  contradiction.
Qed.

Lemma declarationsOf_clean body :
  Forall cleanEntry (declarationsOf body)
  ∧ NoDup (map fst (declarationsOf body)).
Proof.
  unfold declarationsOf.
  pose proof (split_pieces_sep 59 body) as Hpieces.
  assert (H : ∀ record,
             Forall cleanEntry record ∧ NoDup (map fst record) →
             Forall cleanEntry (fold_left declarationStep (split 59 body) record)
             ∧ NoDup (map fst (fold_left declarationStep (split 59 body)
                                         record))).
  { induction Hpieces as [| piece pieces Hpiece _ IH]; intros record Hrec;
      [exact Hrec |].
    simpl. apply IH. unfold declarationStep.
    destruct (keyValue piece) as [[key value] |] eqn:Hkv; [| exact Hrec].
    destruct Hrec as [Hclean Hnd].
    split; [| apply recordSet_NoDup, Hnd].
    apply recordSet_clean; [| exact Hclean].
    exact (keyValue_clean piece key value Hpiece Hkv). }
  apply H. split; constructor.
Qed.

(** X9.  Every rule that [parseCss] returns has a trimmed selector and
    declarations with distinct keys, each key and each value not empty,
    trimmed, and without [:] or [;]. *)
Theorem parseCss_rules_are_clean (css : jsstring) (rule : CssRule) :
  rule ∈ parseCss css →
  trim (fst rule) = fst rule
  ∧ NoDup (map fst (snd rule))
  ∧ Forall cleanEntry (snd rule).
Proof.
  unfold parseCss. intros Hin.
  apply list_elem_of_fmap in Hin as ([sel body] & -> & _). simpl.
  destruct (declarationsOf_clean body) as [Hclean Hnd].
  split; [apply trim_idempotent | split; assumption].
Qed.

Lemma parseCss_rules_are_clean_witness :
  let rule := (js "p", [(js "color", js "red"); (js "margin", js "4px")]) in
  rule ∈ parseCss (js " p { color : red ; margin: 2px; margin : 4px }")
  ∧ trim (fst rule) = fst rule
  ∧ NoDup (map fst (snd rule))
  ∧ Forall cleanEntry (snd rule).
Proof.
  intros rule.
  assert (Hin : rule ∈ parseCss
                  (js " p { color : red ; margin: 2px; margin : 4px }"))
    by (vm_compute; left).
  split; [exact Hin |].
  exact (parseCss_rules_are_clean _ rule Hin).
Defined.

(** ** Declarations written out and parsed again *)

Lemma split_join sep pieces :
  pieces ≠ [] → Forall (λ p, without sep p = true) pieces →
  split sep (join [sep] pieces) = pieces.
Proof.
  intros Hne Hall. induction Hall as [| p ps Hp Hps IH]; [contradiction |].
  destruct ps as [| q ps]; simpl.
  - apply split_without, Hp.
  - rewrite split_app_sep by exact Hp. f_equal. apply IH. discriminate.
Qed.

Lemma serialized_step st kv :
  cleanEntry kv →
  styleStep st (fst kv ++ js ": " ++ snd kv) = assignPair st kv.
Proof.
  destruct kv as [k v]. intros [(Hk & Hkt & Hkc & _) (Hv & Hvt & Hvc & _)].
  cbn [fst snd] in *. unfold styleStep, assignPair. cbn [fst snd].
  change (js ": " ++ v) with (58 :: 32 :: v).
  rewrite keyValue_two_parts by (simpl; assumption).
  rewrite Hkt.
  replace (trim (32 :: v)) with (trim v)
    by (symmetry; apply (trim_space_prefix [32] v eq_refl)).
  rewrite Hvt.
  destruct k; [contradiction |]. destruct v; [contradiction |]. reflexivity.
Qed.

Lemma serialized_without kv :
  cleanEntry kv → without 59 (fst kv ++ js ": " ++ snd kv) = true.
Proof.
  destruct kv as [k v]. intros [(_ & _ & _ & Hk) (_ & _ & _ & Hv)].
  cbn [fst snd] in *. unfold without in *.
  rewrite !forallb_app, Hk, Hv. reflexivity.
Qed.

Lemma serialized_fold declarations :
  Forall cleanEntry declarations →
  ∀ st,
    fold_left styleStep
      (map (λ kv : jsstring * jsstring, fst kv ++ js ": " ++ snd kv)
           declarations) st
    = fold_left assignPair declarations st.
Proof.
  induction 1 as [| x xs Hx _ IH]; intros st; [reflexivity |].
  cbn [map fold_left]. rewrite serialized_step by exact Hx. apply IH.
Qed.

(** Clean declarations go through the text that [applyCssRules] builds from
    them unchanged. *)
Lemma declarationStyles_clean declarations :
  Forall cleanEntry declarations →
  declarationStyles declarations = fold_left assignPair declarations ∅.
Proof.
  intros Hclean. unfold declarationStyles.
  destruct declarations as [| kv declarations]; [reflexivity |].
  assert (Hsplit :
            split 59 (join (js ";")
                        (map (λ kv : jsstring * jsstring,
                                fst kv ++ js ": " ++ snd kv)
                             (kv :: declarations)))
            = map (λ kv : jsstring * jsstring, fst kv ++ js ": " ++ snd kv)
                  (kv :: declarations)).
  { apply (split_join 59); [discriminate |].
    apply Forall_map. eapply Forall_impl; [exact Hclean |].
    intros x Hx. apply serialized_without, Hx. }
  assert (Hne :
            join (js ";")
              (map (λ kv : jsstring * jsstring, fst kv ++ js ": " ++ snd kv)
                   (kv :: declarations)) ≠ []).
  { inversion Hclean as [| ? ? [(Hk & _) _] _]; subst.
    cbn [map join]. destruct kv as [[| c k] v]; [contradiction |].
    destruct (map _ declarations); discriminate. }
  unfold parseStyles.
  destruct (join (js ";") _) as [| c s] eqn:Hj; [contradiction |].
  rewrite Hsplit. apply serialized_fold, Hclean.
Qed.

(** X10.  [applyCssRules] writes the declarations of a rule out as text and
    parses that text again.  For every rule that [parseCss] returns nothing
    is lost on the way: the styles are those of its declarations, applied
    one after the other in the order of the record. *)
Theorem reparsed_declarations_are_unchanged (css : jsstring)
    (rule : CssRule) :
  rule ∈ parseCss css →
  declarationStyles (snd rule) = fold_left assignPair (snd rule) ∅.
Proof.
  intros Hin. apply declarationStyles_clean.
  unfold parseCss in Hin.
  apply list_elem_of_fmap in Hin as ([sel body] & -> & _). simpl.
  apply declarationsOf_clean.
Qed.

Lemma reparsed_declarations_are_unchanged_witness :
  let rule := (js "p", [(js "color", js "red"); (js "margin", js "4px")]) in
  rule ∈ parseCss (js " p { color : red ; margin: 2px; margin : 4px }")
  ∧ declarationStyles (snd rule) = fold_left assignPair (snd rule) ∅.
Proof.
  intros rule.
  assert (Hin : rule ∈ parseCss
                  (js " p { color : red ; margin: 2px; margin : 4px }"))
    by (vm_compute; left).
  split; [exact Hin |].
  exact (reparsed_declarations_are_unchanged _ rule Hin).
Defined.

(** ** A rule body and an inline style *)

Lemma styleStep_fold pieces : ∀ st,
  fold_left styleStep pieces st
  = fold_left assignPair (omap keyValue pieces) st.
Proof.
  induction pieces as [| piece pieces IH]; intros st; [reflexivity |].
  simpl. unfold styleStep at 2.
  destruct (keyValue piece) as [[k v] |]; simpl; apply IH.
Qed.

Lemma declarationStep_fold pieces : ∀ record,
  fold_left declarationStep pieces record
  = fold_left (λ d kv, recordSet (fst kv) (snd kv) d)
              (omap keyValue pieces) record.
Proof.
  induction pieces as [| piece pieces IH]; intros record; [reflexivity |].
  simpl. unfold declarationStep at 2.
  destruct (keyValue piece) as [[k v] |]; simpl; apply IH.
Qed.

Lemma recordSet_fresh key value record :
  key ∉ map fst record →
  recordSet key value record
  = record ++ (if key === js "__proto__" then [] else [(key, value)]).
Proof.
  induction record as [| [k v] record IH]; simpl; intros Hfresh;
    [reflexivity |].
  apply not_elem_of_cons in Hfresh as [Hne Hfresh].
  rewrite bool_decide_eq_false_2 by congruence.
  rewrite IH by exact Hfresh. reflexivity.
Qed.

Lemma fold_recordSet_distinct pairs : ∀ record,
  NoDup (map fst pairs) →
  (∀ k, k ∈ map fst pairs → k ∉ map fst record) →
  fold_left (λ d kv, recordSet (fst kv) (snd kv) d) pairs record
  = record ++ filter (λ kv, fst kv ≠ js "__proto__") pairs.
Proof.
  induction pairs as [| [k v] pairs IH]; intros record Hnd Hfresh; simpl.
  - rewrite app_nil_r. reflexivity.
  - apply NoDup_cons in Hnd as [Hk Hnd].
    rewrite recordSet_fresh by (apply Hfresh; left).
    rewrite filter_cons. simpl.
    rewrite IH; [| exact Hnd |].
    + case_bool_decide as Hp; [rewrite decide_False by tauto
                              | rewrite decide_True by exact Hp].
      * rewrite app_nil_r. reflexivity.
      * rewrite <- app_assoc. reflexivity.
    + intros k' Hk'. rewrite map_app. intros Hin.
      apply elem_of_app in Hin as [Hin | Hin].
      * apply (Hfresh k'); [right; exact Hk' | exact Hin].
      * destruct (k === js "__proto__"); simpl in Hin;
          [apply elem_of_nil in Hin; exact Hin |].
        apply list_elem_of_singleton in Hin. subst k'. contradiction.
Qed.

Lemma assign_proto st value : assign st (js "__proto__") value = st.
Proof. reflexivity. Qed.

Lemma fold_assign_filter pairs : ∀ st,
  fold_left assignPair (filter (λ kv, fst kv ≠ js "__proto__") pairs) st
  = fold_left assignPair pairs st.
Proof.
  induction pairs as [| [k v] pairs IH]; intros st; [reflexivity |].
  rewrite filter_cons. cbn [fst].
  destruct (decide (k ≠ js "__proto__")) as [Hp | Hp].
  - cbn [fold_left]. apply IH.
  - apply dec_stable in Hp. subst k. cbn [fold_left]. rewrite IH.
    change (assignPair st (js "__proto__", v))
      with (assign st (js "__proto__") v).
    rewrite assign_proto. reflexivity.
Qed.

Lemma declarationPairs_clean body : Forall cleanEntry (declarationPairs body).
Proof.
  unfold declarationPairs.
  pose proof (split_pieces_sep 59 body) as Hpieces.
  induction Hpieces as [| piece pieces Hpiece _ IH]; [constructor |].
  simpl. destruct (keyValue piece) as [[k v] |] eqn:Hkv; [| exact IH].
  constructor; [| exact IH].
  exact (keyValue_clean piece k v Hpiece Hkv).
Qed.

(** X11.  The same declarations text gives the same styles as the body of a
    rule and as an inline [style] attribute, provided no key occurs twice in
    it.  (With a repeated key the two differ: see
    [repeated_key_example].) *)
Theorem rule_body_agrees_with_inline (body : jsstring) :
  NoDup (map fst (declarationPairs body)) →
  declarationStyles (declarationsOf body) = parseStyles (Some body).
Proof.
  intros Hnd.
  assert (Hrec : declarationsOf body
                 = filter (λ kv, fst kv ≠ js "__proto__")
                          (declarationPairs body)).
  { unfold declarationsOf. rewrite declarationStep_fold.
    fold (declarationPairs body).
    rewrite fold_recordSet_distinct; [reflexivity | exact Hnd |].
    intros k _. apply not_elem_of_nil. }
  rewrite declarationStyles_clean by apply declarationsOf_clean.
  rewrite Hrec, fold_assign_filter.
  destruct body as [| c body]; [reflexivity |].
  unfold parseStyles. rewrite styleStep_fold. reflexivity.
Qed.

Lemma rule_body_agrees_with_inline_witness :
  NoDup (map fst (declarationPairs (js "color: red; margin-top: 4")))
  ∧ declarationStyles (declarationsOf (js "color: red; margin-top: 4"))
    = parseStyles (Some (js "color: red; margin-top: 4")).
Proof.
  assert (Hnd : NoDup (map fst (declarationPairs
                                  (js "color: red; margin-top: 4")))).
  { vm_compute. apply NoDup_cons. split; [| apply NoDup_singleton].
    intros Hin. apply list_elem_of_singleton in Hin. discriminate. }
  split; [exact Hnd |].
  exact (rule_body_agrees_with_inline _ Hnd).
Defined.

(** With a key written twice the record keeps the place of the first and
    the value of the last, so the order in which the declarations apply is
    not the order of the text: inline, the last [margin] sets the top
    margin; in a rule, [margin-top] does. *)
Example repeated_key_example :
  let body := js "margin: 10; margin-top: 5; margin: 20" in
  parseStyles (Some body) !! marginTop = Some (VNum (parseFloat (js "20")))
  ∧ declarationStyles (declarationsOf body) !! marginTop
    = Some (VNum (parseFloat (js "5"))).
Proof. vm_compute. split; reflexivity. Qed.

(** ** Text events *)

Lemma replaceRuns_allSpace p s : ∀ b,
  allSpace s = true → allSpace (replaceRuns p b s) = true.
Proof.
  unfold allSpace. induction s as [| c s IH]; intros b; simpl;
    [reflexivity |].
  intros H. apply andb_true_iff in H as [Hc Hs].
  destruct (p c); [destruct b |]; simpl; rewrite ?Hc; simpl;
    apply IH, Hs.
Qed.

Lemma collapse_blank txt : allSpace txt = true → trim (collapse txt) = [].
Proof.
  intros H. apply allSpace_trim. unfold collapse.
  apply replaceRuns_allSpace, replaceRuns_allSpace, H.
Qed.

(** X12.  A text event that holds white space only (the indentation between
    two tags, say) changes nothing: no node is created for it. *)
Theorem blank_text_is_dropped (rules : list CssRule) (before : list Event)
    (b : Builder) (txt : jsstring) :
  feed rules before emptyBuilder = Ok b → allSpace txt = true →
  ontext b txt = Ok b.
Proof.
  intros Hfeed Hblank. unfold ontext.
  case_bool_decide as Hlen; [| reflexivity].
  destruct (top_ok b (feed_invariant _ _ _ Hfeed) Hlen)
    as (p & parent & -> & _).
  rewrite (collapse_blank txt Hblank). reflexivity.
Qed.

Lemma blank_text_is_dropped_witness :
  let b :=
    {| heap := [container NBlock (finalStyles [] (js "div") [])];
       rootNodes := [0%nat]; stack := [0%nat] |} in
  feed [] [OpenTag (js "div") []] emptyBuilder = Ok b
  ∧ allSpace [10; 32; 32; 9] = true
  ∧ ontext b [10; 32; 32; 9] = Ok b.
Proof.
  intros b.
  assert (Hfeed : feed [] [OpenTag (js "div") []] emptyBuilder = Ok b)
    by (vm_compute; reflexivity).
  split; [exact Hfeed |]. split; [reflexivity |].
  exact (blank_text_is_dropped [] _ b [10; 32; 32; 9] Hfeed eq_refl).
Defined.

Lemma replaceRuns_visible p s :
  (∀ c, p c = true → isSpace c = true) →
  ∀ b, List.filter (λ c, negb (isSpace c)) (replaceRuns p b s)
       = List.filter (λ c, negb (isSpace c)) s.
Proof.
  intros Hp. induction s as [| c s IH]; intros b; simpl; [reflexivity |].
  destruct (p c) eqn:Hc.
  - rewrite (Hp c Hc). simpl. destruct b; simpl; apply IH.
  - simpl. destruct (negb (isSpace c)); [f_equal |]; apply IH.
Qed.

Lemma replaceRuns_length p s : ∀ b,
  (length (replaceRuns p b s) ≤ length s)%nat.
Proof.
  induction s as [| c s IH]; intros b; simpl; [lia |].
  destruct (p c); [destruct b |]; simpl;
    [specialize (IH true) | specialize (IH true) | specialize (IH false)];
    lia.
Qed.

(** X13.  Collapsing only touches white space: the characters that are not
    white space come out the same and in the same order, the text does not
    get longer, and what white space is left is single spaces. *)
Theorem collapse_keeps_visible_characters (txt : jsstring) :
  List.filter (λ c, negb (isSpace c)) (collapse txt)
  = List.filter (λ c, negb (isSpace c)) txt
  ∧ (length (collapse txt) ≤ length txt)%nat
  ∧ collapsed false (collapse txt).
Proof.
  unfold collapse. split; [| split].
  - rewrite replaceRuns_visible by auto.
    apply replaceRuns_visible. exact isNewlineTab_isSpace.
  - etransitivity; apply replaceRuns_length.
  - apply replaceRuns_collapsed.
Qed.

(** ** Markup without style blocks *)

Lemma findSub_None pat c s :
  findSub pat (c :: s) = None →
  startsWith pat (c :: s) = false ∧ findSub pat s = None.
Proof.
  cbn [findSub]. destruct (startsWith pat (c :: s)); [discriminate |].
  destruct (findSub pat s) as [[before after] |]; [discriminate | auto].
Qed.

Lemma exec_styleHere_none html :
  findSub (js "<style") html = None → exec styleHere html = None.
Proof.
  induction html as [| c html IH]; intros H; [reflexivity |].
  apply findSub_None in H as [Hstart Hrest].
  cbn [exec]. unfold styleHere at 1. rewrite Hstart. apply IH, Hrest.
Qed.

(** X14.  When [<style] occurs nowhere in the markup, nothing is extracted
    and the rules of the conversion are those of the external text alone
    (none when there is no external text). *)
Theorem no_style_block (html : jsstring) (css : option jsstring) :
  findSub (js "<style") html = None →
  extractStyleTags html = []
  ∧ parseCss (allCss html css) = parseCss (default [] css).
Proof.
  intros Hnone.
  assert (He : extractStyleTags html = []).
  { rewrite extractStyleTags_unfold, exec_styleHere_none by exact Hnone.
    reflexivity. }
  split; [exact He |].
  unfold allCss. rewrite He, filter_cons.
  rewrite decide_False by (intros H; apply H; reflexivity).
  rewrite filter_cons, filter_nil.
  destruct (decide (trim (default [] css) ≠ [])) as [Hc | Hc];
    [reflexivity |].
  apply dec_stable in Hc. apply trim_nil_allSpace in Hc.
  rewrite (parseCss_space _ Hc). reflexivity.
Qed.

Lemma no_style_block_witness :
  findSub (js "<style") (js "<p class='x'>t</p>") = None
  ∧ extractStyleTags (js "<p class='x'>t</p>") = []
  ∧ parseCss (allCss (js "<p class='x'>t</p>") (Some (js ".x{color:red}")))
    = parseCss (default [] (Some (js ".x{color:red}"))).
Proof.
  assert (H : findSub (js "<style") (js "<p class='x'>t</p>") = None)
    by reflexivity.
  split; [exact H |].
  exact (no_style_block (js "<p class='x'>t</p>")
           (Some (js ".x{color:red}")) H).
Defined.

(** ** Style blocks in order *)

Lemma startsWith_app_long pat : ∀ u w,
  (length pat ≤ length u)%nat →
  startsWith pat (u ++ w) = startsWith pat u.
Proof.
  induction pat as [| a pat IH]; intros u w Hlen; [reflexivity |].
  destruct u as [| b u]; simpl in *; [lia |].
  rewrite IH by lia. reflexivity.
Qed.

Lemma exec_styleHere_before pre rest :
  findSub (js "<style") (pre ++ js "<styl") = None →
  exec styleHere (pre ++ js "<style" ++ rest)
  = exec styleHere (js "<style" ++ rest).
Proof.
  induction pre as [| c pre IH]; intros Hnone; [reflexivity |].
  rewrite <- app_comm_cons in Hnone.
  apply findSub_None in Hnone as [Hstart Hrest].
  assert (Hs : startsWith (js "<style") (c :: pre ++ js "<style" ++ rest)
               = false).
  { replace (c :: pre ++ js "<style" ++ rest)
      with ((c :: pre ++ js "<styl") ++ 101 :: rest)
      by (rewrite <- app_comm_cons, <- app_assoc; reflexivity).
    rewrite startsWith_app_long; [exact Hstart |].
    cbn [length]. rewrite length_app. cbn. lia. }
  rewrite <- app_comm_cons. cbn [exec]. unfold styleHere at 1.
  rewrite Hs. apply IH, Hrest.
Qed.

Lemma findSub_content content post :
  findSub (js "</style>") (content ++ js "</style") = None →
  findSub (js "</style>") (content ++ js "</style>" ++ post)
  = Some (content, post).
Proof.
  induction content as [| c content IH]; intros Hnone.
  - rewrite app_nil_l, findSub_hit by apply startsWith_app.
    rewrite drop_app_length. reflexivity.
  - rewrite <- app_comm_cons in Hnone.
    apply findSub_None in Hnone as [Hstart Hrest].
    rewrite <- app_comm_cons, findSub_miss, (IH Hrest); [reflexivity |].
    replace (c :: content ++ js "</style>" ++ post)
      with ((c :: content ++ js "</style") ++ 62 :: post)
      by (rewrite <- app_comm_cons, <- app_assoc; reflexivity).
    rewrite startsWith_app_long; [exact Hstart |].
    cbn [length]. rewrite length_app. cbn. lia.
Qed.

(** X15.  The first style block of a markup gives the first piece of the
    embedded style text, followed by a newline; the blocks after it give the
    rest in the same way.  The block is the first [<style] of the text, its
    attributes run to the first [>], its content to the first
    [</style>]. *)
Theorem style_blocks_in_order (pre attrs content post : jsstring) :
  findSub (js "<style") (pre ++ js "<styl") = None →
  without 62 attrs = true →
  findSub (js "</style>") (content ++ js "</style") = None →
  extractStyleTags
    (pre ++ js "<style" ++ attrs ++ 62 :: content ++ js "</style>" ++ post)
  = content ++ newline ++ extractStyleTags post.
Proof.
  intros Hpre Hattrs Hcontent.
  rewrite extractStyleTags_unfold, exec_styleHere_before by exact Hpre.
  assert (Hhere : styleHere (js "<style" ++ attrs ++ 62 :: content
                             ++ js "</style>" ++ post)
                  = Some (content, post)).
  { unfold styleHere. rewrite startsWith_app.
    change 6%nat with (length (js "<style")). rewrite drop_app_length.
    destruct (span_app_all (λ c, negb (c =? 62)) attrs
                (62 :: content ++ js "</style>" ++ post) Hattrs) as [_ ->].
    simpl dropWhile. apply findSub_content, Hcontent. }
  assert (Hexec : exec styleHere (js "<style" ++ attrs ++ 62 :: content
                                  ++ js "</style>" ++ post)
                  = Some (content, post)).
  { destruct (js "<style" ++ attrs ++ 62 :: content ++ js "</style>" ++ post);
      cbn [exec]; rewrite Hhere; reflexivity. }
  rewrite Hexec. reflexivity.
Qed.

Lemma style_blocks_in_order_witness :
  let pre := js "<html><head>" in
  let attrs := js " type='text/css'" in
  let content := js "p{a:b}" in
  let post := js "<style>q{c:d}</style></head>" in
  findSub (js "<style") (pre ++ js "<styl") = None
  ∧ without 62 attrs = true
  ∧ findSub (js "</style>") (content ++ js "</style") = None
  ∧ extractStyleTags
      (pre ++ js "<style" ++ attrs ++ 62 :: content ++ js "</style>" ++ post)
    = content ++ newline ++ extractStyleTags post.
Proof.
  intros pre attrs content post.
  split; [reflexivity |]. split; [reflexivity |]. split; [reflexivity |].
  exact (style_blocks_in_order pre attrs content post eq_refl eq_refl
           eq_refl).
Defined.

(** ** The node factory *)

(** X16.  Whether [createNode] supports a tag, the kind of the node and
    whether the node has a children array depend on the tag name alone, not
    on the attributes or on the style rules. *)
Theorem createNode_kind_depends_on_tag (rules rules' : list CssRule)
    (name : jsstring) (attribs attribs' : JsRecord) :
  type <$> createNode rules name attribs
  = type <$> createNode rules' name attribs'
  ∧ children <$> createNode rules name attribs
    = children <$> createNode rules' name attribs'.
Proof.
  unfold createNode.
  repeat (case_bool_decide; simpl; [split; reflexivity |]).
  split; reflexivity.
Qed.

Lemma fromAttr_lookup_ne name k f attribs st key :
  k ≠ key → fromAttr name k f attribs st !! key = st !! key.
Proof.
  intros Hne. unfold fromAttr. destruct (truthy (attr name attribs));
    [apply lookup_insert_ne, Hne | reflexivity].
Qed.

(** X17.  The styles of a node are the resolved styles, but for what the
    factory writes after the cascade: it only ever writes the width, the
    padding, the text alignment and the font weight; it writes nothing for
    a tag other than [table], [td], [th], [strong] and [b]; and it makes
    [strong] and [b] bold whatever the rules and the inline style say. *)
Theorem node_styles_after_the_cascade (rules : list CssRule)
    (name : jsstring) (attribs : JsRecord) (node : RenderNode) :
  createNode rules name attribs = Some node →
  (∀ key, key ∉ [width; padding; textAlign; fontWeight] →
          styles node !! key = finalStyles rules name attribs !! key)
  ∧ (name ∉ [js "table"; js "td"; js "th"; js "strong"; js "b"] →
     styles node = finalStyles rules name attribs)
  ∧ (name ∈ [js "strong"; js "b"] →
     styles node !! fontWeight = Some bold).
Proof.
  intros H. split; [| split].
  - intros key Hkey. unfold createNode in H.
    assert (Hw : width ≠ key) by (intros <-; apply Hkey; repeat constructor).
    assert (Hp : padding ≠ key)
      by (intros <-; apply Hkey; repeat constructor).
    assert (Ha : textAlign ≠ key)
      by (intros <-; apply Hkey; repeat constructor).
    assert (Hf : fontWeight ≠ key)
      by (intros <-; apply Hkey; repeat constructor).
    tag_cases H; try discriminate; injection H as <-; simpl;
      rewrite ?fromAttr_lookup_ne, ?lookup_insert_ne by assumption;
      reflexivity.
  - intros Hname. unfold createNode in H.
    tag_cases H; try discriminate; injection H as <-; simpl;
      try reflexivity; exfalso; apply Hname; subst name; repeat constructor.
  - intros Hname.
    assert (Hbold : createNode rules name attribs
                    = Some (container NBlock
                              (<[fontWeight := bold]>
                                 (finalStyles rules name attribs)))).
    { apply elem_of_cons in Hname as [-> | Hname]; [reflexivity |].
      apply list_elem_of_singleton in Hname. subst name. reflexivity. }
    rewrite Hbold in H. injection H as <-. apply lookup_insert_eq.
Qed.

Lemma node_styles_after_the_cascade_witness :
  let attribs := [(js "style", js "font-weight: normal; color: red")] in
  let node :=
    container NBlock
      (<[fontWeight := bold]> (finalStyles [] (js "b") attribs)) in
  createNode [] (js "b") attribs = Some node
  ∧ (∀ key, key ∉ [width; padding; textAlign; fontWeight] →
            styles node !! key = finalStyles [] (js "b") attribs !! key)
  ∧ (js "b" ∉ [js "table"; js "td"; js "th"; js "strong"; js "b"] →
     styles node = finalStyles [] (js "b") attribs)
  ∧ (js "b" ∈ [js "strong"; js "b"] →
     styles node !! fontWeight = Some bold).
Proof.
  intros attribs node.
  assert (H : createNode [] (js "b") attribs = Some node) by reflexivity.
  split; [exact H |].
  exact (node_styles_after_the_cascade [] (js "b") attribs node H).
Defined.

(** ** Selectors *)

(** X18.  A selector that holds a space (a descendant selector such as
    [div p] or [.a .b], a group written [h1, h2]) and is not an [#id]
    selector matches no element: a tag name has no space and the class
    names, split on spaces, have none either. *)
Theorem selector_with_a_space_never_matches (selector tagName : jsstring)
    (attribs : JsRecord) (id : option jsstring) :
  without 32 tagName = true →
  without 32 (trim selector) = false →
  startsWith (js "#") (trim selector) = false →
  matchesSelector selector tagName (classNamesOf attribs) id = false.
Proof.
  intros Htag Hspace Hhash. unfold matchesSelector.
  destruct (startsWith (js ".") (trim selector)) eqn:Hdot.
  - apply bool_decide_eq_false. intros Hin.
    assert (Hpiece : without 32 (drop 1 (trim selector)) = true).
    { unfold classNamesOf in Hin.
      destruct (attr (js "class") attribs) as [c |];
        [| apply elem_of_nil in Hin; contradiction].
      pose proof (split_pieces_sep 32 c) as Hall.
      rewrite Forall_forall in Hall. apply Hall, Hin. }
    destruct (trim selector) as [| d r]; [discriminate |].
    change (js ".") with [46] in Hdot. cbn [startsWith] in Hdot.
    apply andb_true_iff in Hdot as [Hd _]. apply N.eqb_eq in Hd. subst d.
    change (drop 1 (46 :: r)) with r in Hpiece.
    change (without 32 (46 :: r))
      with (negb (46 =? 32) && without 32 r) in Hspace.
    rewrite Hpiece in Hspace. discriminate.
  - rewrite Hhash. apply bool_decide_eq_false. intros Heq.
    rewrite Heq in Hspace. congruence.
Qed.

Lemma selector_with_a_space_never_matches_witness :
  without 32 (js "p") = true
  ∧ without 32 (trim (js "div p")) = false
  ∧ startsWith (js "#") (trim (js "div p")) = false
  ∧ matchesSelector (js "div p") (js "p")
      (classNamesOf [(js "class", js "a b")]) None = false.
Proof.
  split; [reflexivity |]. split; [reflexivity |]. split; [reflexivity |].
  exact (selector_with_a_space_never_matches (js "div p") (js "p")
           [(js "class", js "a b")] None eq_refl eq_refl eq_refl).
Defined.

(** ** The roots *)

Lemma step_rootsOk rules b b' :
  RootsOk b → Step rules b b' → RootsOk b'.
Proof.
  unfold RootsOk. intros Hr Hstep.
  destruct Hstep as [| | name attribs node Hnil Hnode
                     | name attribs node p parent Hlast Hp Hnode
                     | txt p parent Hlast Hp Htxt]; simpl; try exact Hr.
  - apply Forall_app. split.
    + eapply Forall_impl; [exact Hr |]. intros r (n & Hn & Hty).
      exists n. rewrite lookup_app_l by (eapply lookup_lt_Some, Hn). auto.
    + apply Forall_singleton. exists node.
      split; [apply list_lookup_middle; reflexivity |].
      apply (createNode_shape _ _ _ _ Hnode).
  - eapply Forall_impl; [exact Hr |]. intros r (n & Hn & Hty).
    pose proof (lookup_lt_Some _ _ _ Hn) as Hlt.
    destruct (decide (p = r)) as [-> | Hne].
    + exists (pushChild (length (heap b)) parent).
      rewrite list_lookup_insert_eq by (rewrite length_app; lia).
      split; [reflexivity |]. simpl. congruence.
    + exists n. rewrite list_lookup_insert_ne, lookup_app_l by (auto || lia).
      auto.
  - eapply Forall_impl; [exact Hr |]. intros r (n & Hn & Hty).
    pose proof (lookup_lt_Some _ _ _ Hn) as Hlt.
    destruct (decide (p = r)) as [-> | Hne].
    + exists (pushChild (length (heap b)) parent).
      rewrite list_lookup_insert_eq by (rewrite length_app; lia).
      split; [reflexivity |]. simpl. congruence.
    + exists n. rewrite list_lookup_insert_ne, lookup_app_l by (auto || lia).
      auto.
Qed.

(** X19.  Every root of the result is an element: no text node stands at
    the top, and a root carries no text.  Text outside any element is
    dropped. *)
Theorem roots_are_elements (rules : list CssRule) (events : list Event)
    (b : Builder) (r : nat) :
  feed rules events emptyBuilder = Ok b → r ∈ rootNodes b →
  ∃ n, heap b !! r = Some n ∧ type n ≠ NText ∧ text n = None.
Proof.
  intros Hfeed Hr.
  assert (Hroots : RootsOk b).
  { revert Hfeed. apply (feed_steps rules RootsOk);
      [| exact Invariant_empty | constructor].
    intros b0 b1 _. apply step_rootsOk. }
  unfold RootsOk in Hroots. rewrite Forall_forall in Hroots.
  destruct (Hroots r Hr) as (n & Hn & Hty).
  exists n. split; [exact Hn |]. split; [exact Hty |].
  destruct (feed_wellformed _ _ _ Hfeed) as [_ [Hnodes _]].
  destruct (Hnodes r n Hn) as [_ Htext].
  destruct (type n); [contradiction | exact Htext ..].
Qed.

Lemma roots_are_elements_witness :
  let n := container NBlock (finalStyles [] (js "p") []) in
  let b := {| heap := [n]; rootNodes := [0%nat]; stack := [] |} in
  feed [] [TextEvent (js "dropped"); OpenTag (js "p") []; CloseTag (js "p");
           TextEvent (js "dropped too")] emptyBuilder = Ok b
  ∧ 0%nat ∈ rootNodes b
  ∧ ∃ n, heap b !! 0%nat = Some n ∧ type n ≠ NText ∧ text n = None.
Proof.
  intros n b.
  assert (Hfeed : feed [] [TextEvent (js "dropped"); OpenTag (js "p") [];
                           CloseTag (js "p"); TextEvent (js "dropped too")]
                    emptyBuilder = Ok b) by (vm_compute; reflexivity).
  assert (Hin : 0%nat ∈ rootNodes b) by (left).
  split; [exact Hfeed |]. split; [exact Hin |].
  exact (roots_are_elements [] _ b 0 Hfeed Hin).
Defined.

(** ** Void elements *)







(** [<div><img src='x.png'>child text</div>]: the text is the sibling of the
    image, not its child. *)
Example text_after_image_example :
  let attribs := [(js "src", js "x.png")] in
  let div := getUserAgentStyles (js "div") in
  built (feed [] [ OpenTag (js "div") []; OpenTag (js "img") attribs;
                   TextEvent (js "child text"); CloseTag (js "img");
                   CloseTag (js "div") ] emptyBuilder)
    = Some [TreeNode NBlock div None None
              (Some [ TreeNode NImage (getUserAgentStyles (js "img")) None
                               (Some (js "x.png")) None;
                      TreeNode NText div (Some (js "child text")) None
                               None ])].
Proof. vm_compute. reflexivity. Qed.
